(** * ino: an inotify directory watcher (src/ino.c)

    A shallow embedding of [handle_events] and [main] of src/ino.c.

    - The process talks to the kernel through six calls ([inotify_init1],
      [calloc], [inotify_add_watch], [poll], [read], [close]/[free]).  Their
      results are supplied by an environment [env]; every call the program
      makes and everything it prints is recorded, in program order, in a
      trace of [io_event]s.
    - The read buffer [buf] is the 4096-byte array of [handle_events]; a
      record header is the Linux [struct inotify_event] (four 32-bit fields,
      16 bytes, followed by [len] bytes of name), read in little-endian
      byte order.
    - The numeric constants are those of the Linux headers the file
      includes (<sys/inotify.h>, <poll.h>, <errno.h>, <stdlib.h>). *)

From Stdlib Require Import ZArith Lia Bool Ascii String.
From Stdlib.Strings Require Import Byte.
From stdpp Require Import base option list.

Local Open Scope Z_scope.

(** ** Constants of the included system headers *)

Definition EINTR : Z := 4.
Definition EAGAIN : Z := 11.
Definition POLLIN : Z := 1.
Definition STDIN_FILENO : Z := 0.
Definition EXIT_SUCCESS : Z := 0.
Definition EXIT_FAILURE : Z := 1.

Definition IN_CLOSE_WRITE : Z := 0x8.
Definition IN_CLOSE_NOWRITE : Z := 0x10.
Definition IN_OPEN : Z := 0x20.
Definition IN_MOVED_FROM : Z := 0x40.
Definition IN_MOVED_TO : Z := 0x80.
Definition IN_ISDIR : Z := 0x40000000.
Definition IN_CLOSE : Z := Z.lor IN_CLOSE_WRITE IN_CLOSE_NOWRITE.
Definition IN_MOVE : Z := Z.lor IN_MOVED_FROM IN_MOVED_TO.
Definition IN_NONBLOCK : Z := 0x800.

(** [sizeof buf] in [handle_events], and [sizeof (struct inotify_event)]. *)
Definition BUF_SIZE : Z := 4096.
Definition EVENT_SIZE : Z := 16.

(** ** Bytes and C strings *)

Definition byte_to_Z (b : byte) : Z := Z.of_N (Byte.to_N b).

Definition byte_of_Z (z : Z) : byte :=
  default x00 (Byte.of_N (Z.to_N (z mod 256))).

(** The line break written by a trailing backslash-n in a format string. *)
Definition newline : string := String "010"%char EmptyString.

(** The text [printf("%s", p)] writes for the bytes found at [p]: everything
    before the first NUL.  [None] when the bytes end before a NUL is found
    (the read would leave the array). *)
Fixpoint c_string (bs : list byte) : option string :=
  match bs with
  | [] => None
  | b :: rest =>
      if Byte.eqb b x00 then Some EmptyString
      else s ← c_string rest; Some (String (ascii_of_byte b) s)
  end.

(** ** The record header: [struct inotify_event] *)

Record inotify_event : Type := mk_event {
  ev_wd : Z;       (* int      wd     *)
  ev_mask : Z;     (* uint32_t mask   *)
  ev_cookie : Z;   (* uint32_t cookie *)
  ev_len : Z       (* uint32_t len    *)
}.

Definition load_u8 (buf : list byte) (off : Z) : option Z :=
  if 0 <=? off then byte_to_Z <$> buf !! Z.to_nat off else None.

Definition load_u32 (buf : list byte) (off : Z) : option Z :=
  b0 ← load_u8 buf off;
  b1 ← load_u8 buf (off + 1);
  b2 ← load_u8 buf (off + 2);
  b3 ← load_u8 buf (off + 3);
  Some (b0 + 2 ^ 8 * b1 + 2 ^ 16 * b2 + 2 ^ 24 * b3).

(** Reinterpreting 32 bits as a two's-complement [int]. *)
Definition to_int32 (u : Z) : Z := if u <? 2 ^ 31 then u else u - 2 ^ 32.

(** [event = (const struct inotify_event * ) ptr] followed by the field
    reads; [None] when the header does not lie inside the array. *)
Definition load_event (buf : list byte) (off : Z) : option inotify_event :=
  w ← load_u32 buf off;
  m ← load_u32 buf (off + 4);
  c ← load_u32 buf (off + 8);
  l ← load_u32 buf (off + 12);
  Some (mk_event (to_int32 w) m c l).

(** [event->name] as printed by [printf("%s", event->name)]. *)
Definition load_name (buf : list byte) (off : Z) : option string :=
  if 0 <=? off then c_string (drop (Z.to_nat (off + EVENT_SIZE)) buf) else None.

(** ** Printing one record (ino.c lines 43-71) *)

(** The C condition [if (m & bit)]. *)
Definition test_mask (m bit : Z) : bool := negb (Z.land m bit =? 0).

Definition print_kinds (m : Z) : string :=
  ((if test_mask m IN_OPEN then "IN_OPEN: " else "") ++
   (if test_mask m IN_CLOSE_NOWRITE then "IN_CLOSE_NOWRITE: " else "") ++
   (if test_mask m IN_CLOSE_WRITE then "IN_CLOSE_WRITE: " else "") ++
   (if test_mask m IN_MOVED_FROM then "IN_MOVED_FROM: " else "") ++
   (if test_mask m IN_MOVED_TO then "IN_MOVED_TO: " else ""))%string.

(** The array reads [wd[i]] and [argv[i]]. *)
Definition wd_at (wd : list Z) (i : nat) : Z := default 0 (wd !! i).
Definition argv_at (argv : list string) (i : nat) : string :=
  default EmptyString (argv !! i).

(** [for (i = 1; i < argc; ++i) if (wd[i] == id) { ...; break; }]:
    [n] iterations remain, the loop variable is [i]. The result is the
    index at which the loop breaks. *)
Fixpoint find_watch (n : nat) (i : nat) (wd : list Z) (id : Z) : option nat :=
  match n with
  | O => None
  | S n' =>
      if wd_at wd i =? id then Some i
      else find_watch n' (S i) wd id
  end.

Definition resolve (wd : list Z) (argc : Z) (id : Z) : option nat :=
  find_watch (Z.to_nat (argc - 1)) 1 wd id.

(** The table entry an id resolves to, as a path string. *)
Definition resolve_path (wd : list Z) (argc : Z) (argv : list string) (id : Z)
  : option string :=
  i ← resolve wd argc id; Some (argv_at argv i).

Definition print_dir (wd : list Z) (argc : Z) (argv : list string) (id : Z)
  : string :=
  match resolve_path wd argc argv id with
  | Some path => (path ++ "/")%string
  | None => EmptyString
  end.

Definition print_object (m : Z) : string :=
  if test_mask m IN_ISDIR then (" [directory]" ++ newline)%string
  else (" [file]" ++ newline)%string.

(** [if (event->len) printf("%s", event->name);] *)
Definition print_name (buf : list byte) (off : Z) (ev : inotify_event)
  : option string :=
  if ev_len ev =? 0 then Some EmptyString else load_name buf off.

(** The text written for the record at offset [off], and the header read
    there. *)
Definition report_event (wd : list Z) (argc : Z) (argv : list string)
  (buf : list byte) (off : Z) : option (inotify_event * string) :=
  ev ← load_event buf off;
  name ← print_name buf off ev;
  Some (ev, (print_kinds (ev_mask ev) ++ print_dir wd argc argv (ev_wd ev) ++
             name ++ print_object (ev_mask ev))%string).

(** ** The decoding loop (ino.c lines 40-72) *)

(** One iteration of the loop: where the cursor was, where it went, what
    was decoded and what was printed. *)
Record step : Type := mk_step {
  st_off : Z;
  st_next : Z;
  st_event : inotify_event;
  st_text : string
}.

Inductive loop_end : Type :=
| LoopDone (cursor : Z)   (* the condition [ptr < buf + len] failed *)
| LoopFault (cursor : Z)  (* an access outside [buf] *)
| LoopFuel.               (* the model's iteration bound was reached *)

Fixpoint events_loop (fuel : nat) (wd : list Z) (argc : Z) (argv : list string)
  (buf : list byte) (len : Z) (off : Z) : list step * loop_end :=
  if off <? len then
    match fuel with
    | O => ([], LoopFuel)
    | S fuel' =>
        match report_event wd argc argv buf off with
        | None => ([], LoopFault off)
        | Some (ev, text) =>
            let next := off + (EVENT_SIZE + ev_len ev) in
            let '(steps, e) := events_loop fuel' wd argc argv buf len next in
            (mk_step off next ev text :: steps, e)
        end
    end
  else ([], LoopDone off).

(** The whole [for (ptr = buf; ...)] loop.  Every iteration advances the
    cursor by at least [EVENT_SIZE], so [len] iterations are more than
    enough (see [decode_events_fuel]). *)
Definition decode_events (wd : list Z) (argc : Z) (argv : list string)
  (buf : list byte) (len : Z) : list step * loop_end :=
  events_loop (Z.to_nat len) wd argc argv buf len 0.

(** ** The process and its environment *)

(** What the process does that is visible from outside, in program order. *)
Inductive io_event : Type :=
| Stdout (text : string)                 (* printf *)
| Stderr (text : string)                 (* fprintf(stderr, ...) *)
| Perror (prefix : string) (errno : Z)   (* perror *)
| InotifyInit1 (flags : Z)
| Calloc (nmemb : Z)
| AddWatch (fd : Z) (path : string) (mask : Z)
| Poll
| Read (fd : Z) (count : Z)
| Close (fd : Z)
| Free.

(** Ways a run stops. *)
Inductive halt : Type :=
| Exited (status : Z)  (* [exit(status)] *)
| Faulted              (* an access outside [buf] *)
| Blocked              (* a call whose answer the environment never gives *)
| OutOfFuel.           (* the iteration bound of [decode_events]; never
                          met, see [main_fuel] *)

Inductive outcome (A : Type) : Type :=
| Ret (a : A)
| Halt (h : halt).
Arguments Ret {A} a.
Arguments Halt {A} h.

(** The answer of one [read]: the bytes delivered, or [-1] with [errno]. *)
Inductive read_result : Type :=
| ReadData (data : list byte)
| ReadError (errno : Z).

(** The answer of one [poll]: its return value, [errno], and the [revents]
    fields of [fds[0]] (console) and [fds[1]] (inotify). *)
Record poll_result : Type := mk_poll {
  poll_num : Z;
  poll_errno : Z;
  revents0 : Z;
  revents1 : Z
}.

Inductive alloc_result : Type :=
| AllocOk
| AllocNull (errno : Z).

(** The environment of one run.  Answers to calls made in a loop are
    scripts, consumed in order; a script that ends stands for a call that
    does not return. [stack_bytes] is the indeterminate initial content of
    the local array [buf]. *)
Record env : Type := mk_env {
  init_result : Z * Z;                       (* fd or -1, errno *)
  calloc_result : alloc_result;
  add_watch_result : nat -> string -> Z * Z; (* i, argv[i] |-> wd or -1, errno *)
  poll_script : list poll_result;
  inotify_script : list read_result;
  stdin_script : list read_result;
  stack_bytes : list byte
}.

(** [read(fd, buf, count)]: return value, [errno], and the array after the
    call.  At most [count] bytes are delivered, to the start of [buf]. *)
Definition sys_read (count : Z) (buf : list byte) (r : read_result)
  : Z * Z * list byte :=
  match r with
  | ReadData data =>
      let d := take (Z.to_nat count) data in
      (Z.of_nat (length d), 0, d ++ drop (length d) buf)
  | ReadError errno => (-1, errno, buf)
  end.

(** ** [handle_events] (ino.c lines 16-74) *)

(** What the iterations of the decoding loop write: the [printf] calls of
    one iteration are gathered in one [Stdout]. *)
Definition step_events (steps : list step) : list io_event :=
  (fun s => Stdout (st_text s)) <$> steps.

(** The outer [for (;;)] loop, by recursion on the answers still to come
    from the inotify descriptor; on return, the answers not yet consumed. *)
Fixpoint handle_events_loop (fd : Z) (wd : list Z) (argc : Z)
  (argv : list string) (buf : list byte) (script : list read_result)
  : list io_event * outcome (list read_result) :=
  match script with
  | [] => ([Read fd BUF_SIZE], Halt Blocked)
  | r :: script' =>
      let '(len, errno, buf') := sys_read BUF_SIZE buf r in
      if (len =? -1) && negb (errno =? EAGAIN) then
        ([Read fd BUF_SIZE; Perror "read" errno], Halt (Exited EXIT_FAILURE))
      else if len <=? 0 then
        ([Read fd BUF_SIZE], Ret script')
      else
        let '(steps, e) := decode_events wd argc argv buf' len in
        match e with
        | LoopDone _ =>
            let '(tr, o) := handle_events_loop fd wd argc argv buf' script' in
            (Read fd BUF_SIZE :: step_events steps ++ tr, o)
        | LoopFault _ => (Read fd BUF_SIZE :: step_events steps, Halt Faulted)
        | LoopFuel => (Read fd BUF_SIZE :: step_events steps, Halt OutOfFuel)
        end
  end.

Definition handle_events (fd : Z) (wd : list Z) (argc : Z) (argv : list string)
  (e : env) (script : list read_result)
  : list io_event * outcome (list read_result) :=
  handle_events_loop fd wd argc argv (stack_bytes e) script.

(** ** [main] (ino.c lines 76-175) *)

(** The registration loop, lines 113-120: [n] iterations remain, the loop
    variable is [i].  [None] when a registration failed and the process
    exits. *)
Fixpoint add_watches (n : nat) (i : nat) (fd : Z) (argv : list string)
  (e : env) (wd : list Z) : list io_event * option (list Z) :=
  match n with
  | O => ([], Some wd)
  | S n' =>
      let path := argv_at argv i in
      let '(r, errno) := add_watch_result e i path in
      let call := AddWatch fd path (Z.lor (Z.lor IN_OPEN IN_CLOSE) IN_MOVE) in
      let wd' := <[i := r]> wd in
      if r =? -1 then
        ([call;
          Stderr ("Cannot watch '" ++ path ++ "'" ++ newline);
          Perror "inotify_add_watch" errno], None)
      else
        let '(tr, res) := add_watches n' (S i) fd argv e wd' in
        (call :: tr, res)
  end.

(** [while (read(STDIN_FILENO, &buf, 1) > 0 && buf != '\n') continue;]
    [true] when the loop was left, [false] when a read never returned. *)
Fixpoint drain_stdin (script : list read_result) : list io_event * bool :=
  match script with
  | [] => ([Read STDIN_FILENO 1], false)
  | r :: script' =>
      let '(n, _, buf) := sys_read 1 [x00] r in
      if (0 <? n) && negb (default 0 (load_u8 buf 0) =? 10) then
        let '(tr, b) := drain_stdin script' in (Read STDIN_FILENO 1 :: tr, b)
      else ([Read STDIN_FILENO 1], true)
  end.

(** The [for(;;)] loop of lines 140-167, by recursion on the answers still
    to come from [poll].  [Ret tt] is the [break] of line 159. *)
Fixpoint main_loop (fd : Z) (wd : list Z) (argc : Z) (argv : list string)
  (e : env) (polls : list poll_result) (ino : list read_result)
  : list io_event * outcome unit :=
  match polls with
  | [] => ([Poll], Halt Blocked)
  | p :: polls' =>
      if poll_num p =? -1 then
        if poll_errno p =? EINTR then
          let '(tr, o) := main_loop fd wd argc argv e polls' ino in
          (Poll :: tr, o)
        else ([Poll; Perror "poll" (poll_errno p)], Halt (Exited EXIT_FAILURE))
      else if 0 <? poll_num p then
        if test_mask (revents0 p) POLLIN then
          let '(tr, finished) := drain_stdin (stdin_script e) in
          (Poll :: tr, if finished then Ret tt else Halt Blocked)
        else if test_mask (revents1 p) POLLIN then
          match handle_events fd wd argc argv e ino with
          | (tr, Ret ino') =>
              let '(tr', o) := main_loop fd wd argc argv e polls' ino' in
              (Poll :: tr ++ tr', o)
          | (tr, Halt h) => (Poll :: tr, Halt h)
          end
        else
          let '(tr, o) := main_loop fd wd argc argv e polls' ino in
          (Poll :: tr, o)
      else
        let '(tr, o) := main_loop fd wd argc argv e polls' ino in
        (Poll :: tr, o)
  end.

(** Lines 103 and 113-120: the zeroed table of [calloc(argc, sizeof(int))],
    then [for (i = 1; i < argc; i++)]. *)
Definition register_all (fd : Z) (argc : Z) (argv : list string) (e : env)
  : list io_event * option (list Z) :=
  add_watches (Z.to_nat (argc - 1)) 1 fd argv e (replicate (Z.to_nat argc) 0).

(** Lines 109-174, once [fd] and [wd] exist. *)
Definition watch_and_listen (fd : Z) (argc : Z) (argv : list string) (e : env)
  : list io_event * halt :=
  match register_all fd argc argv e with
  | (tr, None) => (tr, Exited EXIT_FAILURE)
  | (tr, Some wd) =>
      let listening := Stdout ("Listening for events." ++ newline) in
      match main_loop fd wd argc argv e (poll_script e) (inotify_script e) with
      | (tr', Ret _) =>
          (tr ++ listening :: tr' ++
             [Stdout ("Listening for events stopped." ++ newline);
              Close fd; Free],
           Exited EXIT_SUCCESS)
      | (tr', Halt h) => (tr ++ listening :: tr', h)
      end
  end.

Definition main (argv : list string) (e : env) : list io_event * halt :=
  let argc := Z.of_nat (length argv) in
  if argc <? 2 then
    ([Stdout ("Usage: " ++ argv_at argv 0 ++
              " PATH [PATH ...]" ++ newline)],
     Exited EXIT_FAILURE)
  else
    let banner := Stdout ("Press ENTER key to exit." ++ newline) in
    let '(fd, errno) := init_result e in
    if fd =? -1 then
      ([banner; InotifyInit1 IN_NONBLOCK; Perror "inotify_init1" errno],
       Exited EXIT_FAILURE)
    else
      match calloc_result e with
      | AllocNull errno' =>
          ([banner; InotifyInit1 IN_NONBLOCK; Calloc argc;
            Perror "calloc" errno'],
           Exited EXIT_FAILURE)
      | AllocOk =>
          let '(tr, h) := watch_and_listen fd argc argv e in
          (banner :: InotifyInit1 IN_NONBLOCK :: Calloc argc :: tr, h)
      end.

(** ** The kernel's side of the wire format

    What the kernel writes for one event (inotify(7)): the four header
    fields in the byte order of the machine, then the name field, which is
    either absent or NUL-terminated (and NUL-padded); [len] counts the
    whole name field. *)

Record record : Type := mk_record {
  r_wd : Z;
  r_mask : Z;
  r_cookie : Z;
  r_name : list byte   (* the name field, terminator and padding included *)
}.

Definition le32 (z : Z) : list byte :=
  [byte_of_Z z; byte_of_Z (z / 2 ^ 8); byte_of_Z (z / 2 ^ 16);
   byte_of_Z (z / 2 ^ 24)].

Definition name_length (r : record) : Z := Z.of_nat (length (r_name r)).

Definition header_bytes (r : record) : list byte :=
  le32 (r_wd r) ++ le32 (r_mask r) ++ le32 (r_cookie r) ++
  le32 (name_length r).

Definition encode (r : record) : list byte := header_bytes r ++ r_name r.

Definition encode_all (rs : list record) : list byte :=
  concat (encode <$> rs).

Definition header_of (r : record) : inotify_event :=
  mk_event (r_wd r) (r_mask r) (r_cookie r) (name_length r).

Definition well_formed (r : record) : Prop :=
  - 2 ^ 31 <= r_wd r < 2 ^ 31 /\
  0 <= r_mask r < 2 ^ 32 /\
  0 <= r_cookie r < 2 ^ 32 /\
  name_length r < 2 ^ 32 /\
  (r_name r = [] \/ x00 ∈ r_name r).

(** The bytes of a text, and a name field: the text, its terminator and
    [pad] more NULs. *)
Definition bytes_of (s : string) : list byte :=
  byte_of_ascii <$> list_ascii_of_string s.

Definition name_field (s : string) (pad : nat) : list byte :=
  bytes_of s ++ replicate (S pad) x00.

(** The name a well-formed record carries, as text. *)
Definition record_name (r : record) : string :=
  default EmptyString (c_string (r_name r)).

(** The line [report_event] is expected to write for a record. *)
Definition record_text (wd : list Z) (argc : Z) (argv : list string)
  (r : record) : string :=
  (print_kinds (r_mask r) ++ print_dir wd argc argv (r_wd r) ++
   record_name r ++ print_object (r_mask r))%string.

(** The iterations expected for a run of records starting at [off]. *)
Fixpoint expected_steps (wd : list Z) (argc : Z) (argv : list string)
  (off : Z) (rs : list record) : list step :=
  match rs with
  | [] => []
  | r :: rs' =>
      let next := off + (EVENT_SIZE + name_length r) in
      mk_step off next (header_of r) (record_text wd argc argv r)
        :: expected_steps wd argc argv next rs'
  end.

Definition sum_Z (l : list Z) : Z := foldr Z.add 0 l.

Definition advance (s : step) : Z := st_next s - st_off s.

(** ** Vocabulary of the statements *)

(** The five tracked kinds with their tags, in the order in which lines
    44-53 test them. *)
Definition tracked_kinds : list (Z * string) :=
  [(IN_OPEN, "IN_OPEN: "%string);
   (IN_CLOSE_NOWRITE, "IN_CLOSE_NOWRITE: "%string);
   (IN_CLOSE_WRITE, "IN_CLOSE_WRITE: "%string);
   (IN_MOVED_FROM, "IN_MOVED_FROM: "%string);
   (IN_MOVED_TO, "IN_MOVED_TO: "%string)].

(** The tags of the kinds a mask carries, in that order. *)
Definition kind_tags (m : Z) : list string :=
  snd <$> List.filter (fun k => test_mask m (fst k)) tracked_kinds.

Definition concat_text (l : list string) : string :=
  foldr String.append EmptyString l.

Definition untracked (m : Z) : Prop :=
  Forall (fun k => test_mask m (fst k) = false) tracked_kinds.


(** [k] is the first entry of the table, from index 1, that holds [id]. *)
Definition first_match (wd : list Z) (argc : Z) (id : Z) (k : nat) : Prop :=
  (1 <= k)%nat /\ Z.of_nat k < argc /\ wd_at wd k = id /\
  forall i : nat, (1 <= i < k)%nat -> wd_at wd i <> id.

Definition no_match (wd : list Z) (argc : Z) (id : Z) : Prop :=
  forall i : nat, (1 <= i)%nat -> Z.of_nat i < argc -> wd_at wd i <> id.

(** The id the [i]-th registration returned. *)
Definition registered_id (e : env) (argv : list string) (i : nat) : Z :=
  fst (add_watch_result e i (argv_at argv i)).

Definition is_close (ev : io_event) : bool :=
  match ev with Close _ => true | _ => false end.

Definition is_free (ev : io_event) : bool :=
  match ev with Free => true | _ => false end.

Definition is_read (ev : io_event) : bool :=
  match ev with Read _ _ => true | _ => false end.

Definition is_stdout (ev : io_event) : bool :=
  match ev with Stdout _ => true | _ => false end.

Definition count_events (p : io_event -> bool) (tr : list io_event) : nat :=
  length (List.filter p tr).

(** The mask every watch is registered with (line 114). *)
Definition WATCH_MASK : Z := Z.lor (Z.lor IN_OPEN IN_CLOSE) IN_MOVE.

(** What one well-formed batch of records adds to the trace of
    [handle_events]: the read that delivered it, then one line per record. *)
Definition batch_trace (fd : Z) (wd : list Z) (argc : Z) (argv : list string)
  (rs : list record) : list io_event :=
  Read fd BUF_SIZE :: ((fun r => Stdout (record_text wd argc argv r)) <$> rs).

Definition good_batch (rs : list record) : Prop :=
  rs <> [] /\ Forall well_formed rs /\
  Z.of_nat (length (encode_all rs)) <= BUF_SIZE.

(** Neither a [close] nor a [free]. *)
Definition not_cleanup (ev : io_event) : Prop :=
  is_close ev = false /\ is_free ev = false.

(** The answers of the inotify descriptor that deliver the given batches. *)
Definition deliver (batches : list (list record)) : list read_result :=
  (fun rs => ReadData (encode_all rs)) <$> batches.

(** Console input: one byte per answer. *)
Definition keystrokes (bs : list byte) : list read_result :=
  (fun b => ReadData [b]) <$> bs.

(** ** Sample data *)

Definition sample_argv : list string :=
  ["ino"%string; "/tmp/a"%string; "/tmp/b"%string].

Definition sample_wd : list Z := [0; 1; 2].

(** A file under the first directory, opened and moved away. *)
Definition sample_open_moved : record :=
  mk_record 1 (Z.lor IN_OPEN IN_MOVED_FROM) 0 (name_field "x.txt" 10).

(** The second directory itself, closed after writing; no name field. *)
Definition sample_dir_closed : record :=
  mk_record 2 (Z.lor IN_ISDIR IN_CLOSE_WRITE) 0 [].

(** [IN_IGNORED] (0x8000) for a watch id the table does not hold. *)
Definition sample_ignored : record :=
  mk_record 7 0x8000 0 (name_field "y" 2).

Definition sample_records : list record :=
  [sample_open_moved; sample_dir_closed; sample_ignored].

Definition sample_stale : list byte := replicate 8 x41.

(** Both registrations succeed with ids 1 and 2; two batches are pending
    when the descriptor becomes ready; the operator then types "q" and
    ENTER. *)
Definition sample_env : env :=
  mk_env (3, 0) AllocOk (fun i _ => (Z.of_nat i, 0))
    [mk_poll 1 0 0 POLLIN; mk_poll (-1) EINTR 0 0; mk_poll 2 0 POLLIN POLLIN]
    (deliver [[sample_open_moved; sample_dir_closed]; [sample_ignored]] ++
       [ReadError EAGAIN])
    (keystrokes [x71; x0a])
    (replicate 4096 x00).

(** The second path is a link to the first directory: the kernel answers
    both registrations with the same id (inotify_add_watch(2)). *)
Definition alias_argv : list string :=
  ["ino"%string; "/tmp/a"%string; "/tmp/link"%string].

Definition alias_env : env :=
  mk_env (3, 0) AllocOk (fun _ _ => (1, 0)) [] [] [] (replicate 4096 x00).

(** The second path does not exist: its registration fails with ENOENT. *)
Definition missing_argv : list string :=
  ["ino"%string; "/tmp/a"%string; "/tmp/missing"%string; "/tmp/b"%string].

Definition missing_env : env :=
  mk_env (3, 0) AllocOk
    (fun i _ => if (i =? 2)%nat then (-1, 2) else (Z.of_nat i, 0))
    [mk_poll 1 0 0 POLLIN]
    (deliver [[sample_open_moved]] ++ [ReadError EAGAIN])
    (keystrokes [x0a])
    (replicate 4096 x00).

(** ** Vocabulary of the further properties *)

(** The cursors of consecutive iterations: each iteration starts where the
    previous one ended and ends one header and one name field further. *)
Fixpoint chained (off : Z) (steps : list step) : Prop :=
  match steps with
  | [] => True
  | s :: rest =>
      st_off s = off /\
      st_next s = off + (EVENT_SIZE + ev_len (st_event s)) /\
      chained (st_next s) rest
  end.

(** Answers of [poll] by the branch of lines 150-166 they lead to. *)
Definition console_ready (p : poll_result) : Prop :=
  0 < poll_num p /\ test_mask (revents0 p) POLLIN = true.

Definition inotify_ready (p : poll_result) : Prop :=
  0 < poll_num p /\ test_mask (revents0 p) POLLIN = false /\
  test_mask (revents1 p) POLLIN = true.

Definition idle (p : poll_result) : Prop :=
  poll_num p <> -1 /\
  (poll_num p <= 0 \/
   (test_mask (revents0 p) POLLIN = false /\
    test_mask (revents1 p) POLLIN = false)).

(** One wake-up of the inotify descriptor: the batches it delivers and the
    [EAGAIN] that follows them; and what the wake-up adds to the trace. *)
Definition wakeup_script (w : list (list record)) : list read_result :=
  deliver w ++ [ReadError EAGAIN].

Definition wakeup_trace (fd : Z) (wd : list Z) (argc : Z) (argv : list string)
  (w : list (list record)) : list io_event :=
  Poll :: concat (batch_trace fd wd argc argv <$> w) ++ [Read fd BUF_SIZE].

(** The registration calls for [argv[i .. i+n-1]] and the ids they return. *)
Definition add_watch_calls (fd : Z) (argv : list string) (i n : nat)
  : list io_event :=
  (fun j => AddWatch fd (argv_at argv j) WATCH_MASK) <$> seq i n.

Definition registered_ids (e : env) (argv : list string) (i n : nat)
  : list Z :=
  registered_id e argv <$> seq i n.

(** A [perror], or the usage message of line 86. *)
Definition is_diagnostic (ev : io_event) : Prop :=
  match ev with
  | Perror _ _ => True
  | Stdout text =>
      exists prog : string,
        text = ("Usage: " ++ prog ++ " PATH [PATH ...]" ++ newline)%string
  | _ => False
  end.

(** The last thing a run did was to write a diagnostic. *)
Definition ends_with_diagnostic (tr : list io_event) : Prop :=
  exists (tr0 : list io_event) (d : io_event),
    tr = tr0 ++ [d] /\ is_diagnostic d.

(** A text without NUL characters. *)
Definition no_nul (s : string) : Prop :=
  Forall (fun c => c <> "000"%char) (list_ascii_of_string s).

(** A session without incident: one wake-up with two batches, a second
    with one, then the operator types "q" and ENTER. *)
Definition session_env : env :=
  mk_env (3, 0) AllocOk (fun i _ => (Z.of_nat i, 0))
    [mk_poll 1 0 0 POLLIN; mk_poll 1 0 0 POLLIN; mk_poll 1 0 POLLIN 0]
    (wakeup_script [[sample_open_moved; sample_dir_closed]; [sample_ignored]] ++
     wakeup_script [[sample_dir_closed]])
    (keystrokes [x71; x0a])
    (replicate 4096 x00).


(** * Properties *)

(** ** Bytes and 32-bit fields *)

Lemma byte_to_Z_range (b : byte) : 0 <= byte_to_Z b < 256.
Proof.
  unfold byte_to_Z. pose proof (Byte.to_N_bounded b). lia.
Qed.

Lemma byte_to_of_Z (z : Z) : byte_to_Z (byte_of_Z z) = z mod 256.
Proof.
  unfold byte_to_Z, byte_of_Z.
  assert (Hr : 0 <= z mod 256 < 256) by (apply Z.mod_pos_bound; lia).
  destruct (Byte.of_N (Z.to_N (z mod 256))) as [b|] eqn:Hb; simpl.
  - apply Byte.to_of_N in Hb. rewrite Hb. lia.
  - apply Byte.of_N_None_iff in Hb. lia.
Qed.

Lemma load_u8_range (buf : list byte) (off v : Z) :
  load_u8 buf off = Some v -> 0 <= v < 256.
Proof.
  unfold load_u8. destruct (0 <=? off); [|discriminate].
  destruct (buf !! Z.to_nat off) as [b|]; simpl; [|discriminate].
  intros [= <-]. apply byte_to_Z_range.
Qed.

Lemma load_u32_range (buf : list byte) (off v : Z) :
  load_u32 buf off = Some v -> 0 <= v < 2 ^ 32.
Proof.
  unfold load_u32.
  destruct (load_u8 buf off) as [b0|] eqn:H0; simpl; [|discriminate].
  destruct (load_u8 buf (off + 1)) as [b1|] eqn:H1; simpl; [|discriminate].
  destruct (load_u8 buf (off + 2)) as [b2|] eqn:H2; simpl; [|discriminate].
  destruct (load_u8 buf (off + 3)) as [b3|] eqn:H3; simpl; [|discriminate].
  intros [= <-].
  apply load_u8_range in H0, H1, H2, H3. lia.
Qed.

Lemma load_event_len_range (buf : list byte) (off : Z) (ev : inotify_event) :
  load_event buf off = Some ev -> 0 <= ev_len ev < 2 ^ 32.
Proof.
  unfold load_event.
  destruct (load_u32 buf off); simpl; [|discriminate].
  destruct (load_u32 buf (off + 4)); simpl; [|discriminate].
  destruct (load_u32 buf (off + 8)); simpl; [|discriminate].
  destruct (load_u32 buf (off + 12)) as [l|] eqn:Hl; simpl; [|discriminate].
  intros [= <-]. simpl. eapply load_u32_range, Hl.
Qed.

Lemma load_u8_app (pre l : list byte) (off : Z) (k : nat) :
  off = Z.of_nat (length pre) + Z.of_nat k ->
  load_u8 (pre ++ l) off = byte_to_Z <$> l !! k.
Proof.
  intros ->. unfold load_u8.
  rewrite (proj2 (Z.leb_le 0 _)) by lia.
  rewrite lookup_app_r by lia.
  f_equal. f_equal. lia.
Qed.

Lemma le32_value (z : Z) :
  z mod 256 + 2 ^ 8 * ((z / 2 ^ 8) mod 256) + 2 ^ 16 * ((z / 2 ^ 16) mod 256)
    + 2 ^ 24 * ((z / 2 ^ 24) mod 256) = z mod 2 ^ 32.
Proof.
  change (2 ^ 8) with 256. change (2 ^ 16) with 65536.
  change (2 ^ 24) with 16777216. change (2 ^ 32) with 4294967296.
  Z.to_euclidean_division_equations. lia.
Qed.

Lemma load_u32_le32 (pre : list byte) (z : Z) (post : list byte) (off : Z) :
  off = Z.of_nat (length pre) ->
  load_u32 (pre ++ le32 z ++ post) off = Some (z mod 2 ^ 32).
Proof.
  intros ->. unfold load_u32.
  set (o := Z.of_nat (length pre)).
  rewrite (load_u8_app pre _ o 0), (load_u8_app pre _ (o + 1) 1),
    (load_u8_app pre _ (o + 2) 2), (load_u8_app pre _ (o + 3) 3) by lia.
  simpl. rewrite !byte_to_of_Z. f_equal. apply le32_value.
Qed.

Lemma to_int32_mod (z : Z) :
  - 2 ^ 31 <= z < 2 ^ 31 -> to_int32 (z mod 2 ^ 32) = z.
Proof.
  intros Hz. unfold to_int32.
  change (2 ^ 31) with 2147483648 in *. change (2 ^ 32) with 4294967296.
  destruct (Z.ltb_spec (z mod 4294967296) 2147483648);
    Z.to_euclidean_division_equations; lia.
Qed.

Lemma header_bytes_length (r : record) : length (header_bytes r) = 16%nat.
Proof. reflexivity. Qed.

Lemma encode_length (r : record) :
  Z.of_nat (length (encode r)) = EVENT_SIZE + name_length r.
Proof.
  unfold encode, name_length, EVENT_SIZE.
  rewrite length_app, header_bytes_length. lia.
Qed.

(** ** C strings *)

Lemma c_string_app (l post : list byte) (s : string) :
  c_string l = Some s -> c_string (l ++ post) = Some s.
Proof.
  revert s. induction l as [|b l IH]; intros s; simpl; [discriminate|].
  destruct (Byte.eqb b x00); [trivial|].
  destruct (c_string l) as [s'|]; simpl; [|discriminate].
  intros [= <-]. rewrite (IH s') by reflexivity. reflexivity.
Qed.

Lemma c_string_terminated (l : list byte) :
  x00 ∈ l -> is_Some (c_string l).
Proof.
  induction l as [|b l IH]; intros Hin.
  - inversion Hin.
  - simpl. destruct (Byte.eqb b x00) eqn:Eb; [eexists; reflexivity|].
    apply elem_of_cons in Hin as [<-|Hin]; [vm_compute in Eb; discriminate|].
    destruct (IH Hin) as [s ->]. eexists; reflexivity.
Qed.

(** ** Decoding what the kernel encoded *)

Section Decode.
Variables (wd : list Z) (argc : Z) (argv : list string).

Lemma load_event_encode (pre post : list byte) (r : record) (off : Z) :
  well_formed r ->
  off = Z.of_nat (length pre) ->
  load_event (pre ++ encode r ++ post) off = Some (header_of r).
Proof.
  intros (Hwd & Hmask & Hcookie & Hlen & _) ->.
  set (o := Z.of_nat (length pre)).
  set (buf := pre ++ encode r ++ post).
  assert (H0 : load_u32 buf o = Some (r_wd r mod 2 ^ 32)).
  { subst buf. unfold encode, header_bytes. rewrite <- !app_assoc.
    apply load_u32_le32. reflexivity. }
  assert (H1 : load_u32 buf (o + 4) = Some (r_mask r mod 2 ^ 32)).
  { subst buf. unfold encode, header_bytes. rewrite <- !app_assoc.
    rewrite (app_assoc pre).
    apply load_u32_le32. rewrite length_app. simpl. lia. }
  assert (H2 : load_u32 buf (o + 8) = Some (r_cookie r mod 2 ^ 32)).
  { subst buf. unfold encode, header_bytes. rewrite <- !app_assoc.
    rewrite (app_assoc pre), (app_assoc (pre ++ _)).
    apply load_u32_le32. rewrite !length_app. simpl. lia. }
  assert (H3 : load_u32 buf (o + 12) = Some (name_length r mod 2 ^ 32)).
  { subst buf. unfold encode, header_bytes. rewrite <- !app_assoc.
    rewrite (app_assoc pre), (app_assoc (pre ++ _)),
      (app_assoc ((pre ++ _) ++ _)).
    apply load_u32_le32. rewrite !length_app. simpl. lia. }
  unfold load_event. rewrite H0, H1, H2, H3. simpl.
  rewrite to_int32_mod by assumption.
  rewrite !Z.mod_small by (unfold name_length in *; lia).
  reflexivity.
Qed.

Lemma load_name_encode (pre post : list byte) (r : record) (off : Z) :
  x00 ∈ r_name r ->
  off = Z.of_nat (length pre) ->
  load_name (pre ++ encode r ++ post) off = Some (record_name r).
Proof.
  intros Hin ->. unfold load_name, encode.
  rewrite (proj2 (Z.leb_le 0 _)) by lia.
  rewrite <- app_assoc, (app_assoc pre).
  replace (Z.to_nat (Z.of_nat (length pre) + EVENT_SIZE))
    with (length (pre ++ header_bytes r))
    by (rewrite length_app, header_bytes_length; unfold EVENT_SIZE; lia).
  rewrite drop_app_length.
  destruct (c_string_terminated _ Hin) as [s Hs].
  unfold record_name. rewrite Hs. simpl.
  apply c_string_app, Hs.
Qed.

Lemma report_event_encode (pre post : list byte) (r : record) (off : Z) :
  well_formed r ->
  off = Z.of_nat (length pre) ->
  report_event wd argc argv (pre ++ encode r ++ post) off
  = Some (header_of r, record_text wd argc argv r).
Proof.
  intros Hwf Hoff. unfold report_event.
  rewrite (load_event_encode pre post r off Hwf Hoff).
  cbn -[print_name encode print_kinds print_dir print_object].
  unfold print_name. cbn [ev_len header_of].
  destruct Hwf as (_ & _ & _ & _ & [Hnil|Hin]).
  - unfold name_length, record_text, record_name. rewrite Hnil. reflexivity.
  - assert (Hlen : (name_length r =? 0) = false).
    { apply Z.eqb_neq. unfold name_length.
      destruct (r_name r); [inversion Hin|simpl; lia]. }
    rewrite Hlen, (load_name_encode pre post r off Hin Hoff). reflexivity.
Qed.

Lemma encode_all_cons (r : record) (rs : list record) :
  encode_all (r :: rs) = encode r ++ encode_all rs.
Proof. reflexivity. Qed.

Lemma events_loop_encoded (rs : list record) :
  forall (fuel : nat) (pre post : list byte) (off len : Z),
    Forall well_formed rs ->
    (length rs <= fuel)%nat ->
    off = Z.of_nat (length pre) ->
    len = off + Z.of_nat (length (encode_all rs)) ->
    events_loop fuel wd argc argv (pre ++ encode_all rs ++ post) len off
    = (expected_steps wd argc argv off rs, LoopDone len).
Proof.
  induction rs as [|r rs IH]; intros fuel pre post off len Hwf Hfuel Hoff Hlen.
  - simpl in Hlen. assert (len = off) as -> by lia.
    destruct fuel; simpl; rewrite Z.ltb_irrefl; reflexivity.
  - apply Forall_cons_1 in Hwf as [Hr Hrs].
    destruct fuel as [|fuel]; [simpl in Hfuel; lia|].
    rewrite encode_all_cons in Hlen |- *.
    rewrite length_app in Hlen. pose proof (encode_length r) as He.
    assert (Hn : 0 <= name_length r) by (unfold name_length; lia).
    cbn [events_loop].
    rewrite (proj2 (Z.ltb_lt off len)) by (unfold EVENT_SIZE in He; lia).
    rewrite <- app_assoc.
    rewrite (report_event_encode pre _ r off Hr Hoff).
    cbn [ev_len header_of expected_steps].
    rewrite (app_assoc pre).
    rewrite (IH fuel (pre ++ encode r) post _ len Hrs); try reflexivity.
    + simpl in Hfuel. lia.
    + rewrite length_app. lia.
    + lia.
Qed.

Lemma encode_all_length (rs : list record) :
  Z.of_nat (length (encode_all rs))
  = sum_Z ((fun r => EVENT_SIZE + name_length r) <$> rs).
Proof.
  induction rs as [|r rs IH]; [reflexivity|].
  rewrite encode_all_cons, length_app, Nat2Z.inj_add, encode_length, IH.
  reflexivity.
Qed.

Lemma expected_steps_length (off : Z) (rs : list record) :
  length (expected_steps wd argc argv off rs) = length rs.
Proof.
  revert off. induction rs as [|r rs IH]; intros off; simpl; [|rewrite IH];
    reflexivity.
Qed.

Lemma expected_steps_advance (off : Z) (rs : list record) :
  Forall2 (fun s r => st_event s = header_of r /\
                      advance s = EVENT_SIZE + name_length r)
    (expected_steps wd argc argv off rs) rs.
Proof.
  revert off. induction rs as [|r rs IH]; intros off; simpl; constructor.
  - split; [reflexivity|]. unfold advance. simpl. lia.
  - apply IH.
Qed.

Lemma expected_steps_sum (off : Z) (rs : list record) :
  sum_Z (advance <$> expected_steps wd argc argv off rs)
  = Z.of_nat (length (encode_all rs)).
Proof.
  rewrite encode_all_length. revert off.
  induction rs as [|r rs IH]; intros off; [reflexivity|].
  simpl. rewrite IH. unfold advance. simpl.
  match goal with |- _ + ?x = _ + ?y => change y with x end. lia.
Qed.

Lemma encode_all_records (rs : list record) :
  (length rs <= length (encode_all rs))%nat.
Proof.
  induction rs as [|r rs IH]; [reflexivity|].
  rewrite encode_all_cons, length_app. unfold encode.
  rewrite length_app, header_bytes_length. simpl. lia.
Qed.
End Decode.

(** ** The decoding loop always has enough fuel *)

Lemma report_event_load (wd : list Z) (argc : Z) (argv : list string)
  (buf : list byte) (off : Z) (ev : inotify_event) (text : string) :
  report_event wd argc argv buf off = Some (ev, text) ->
  load_event buf off = Some ev.
Proof.
  unfold report_event.
  destruct (load_event buf off) as [ev'|]; [|discriminate].
  cbn -[print_name print_kinds print_dir print_object].
  destruct (print_name buf off ev'); [|discriminate].
  cbn -[print_kinds print_dir print_object]. congruence.
Qed.

Lemma events_loop_fuel (wd : list Z) (argc : Z) (argv : list string)
  (buf : list byte) (len : Z) (fuel : nat) :
  forall off : Z,
    len - off <= Z.of_nat fuel ->
    snd (events_loop fuel wd argc argv buf len off) <> LoopFuel.
Proof.
  induction fuel as [|fuel IH]; intros off Hfuel; cbn [events_loop];
    destruct (Z.ltb_spec off len) as [Hlt|Hge]; try (simpl; discriminate).
  - lia.
  - destruct (report_event wd argc argv buf off) as [[ev text]|] eqn:Hrep;
      [|simpl; discriminate].
    apply report_event_load, load_event_len_range in Hrep.
    specialize (IH (off + (EVENT_SIZE + ev_len ev))).
    destruct (events_loop fuel wd argc argv buf len _) as [steps e].
    simpl in *. apply IH. unfold EVENT_SIZE. lia.
Qed.

Lemma decode_events_fuel (wd : list Z) (argc : Z) (argv : list string)
  (buf : list byte) (len : Z) :
  snd (decode_events wd argc argv buf len) <> LoopFuel.
Proof.
  unfold decode_events. apply events_loop_fuel. lia.
Qed.

(** ** Text *)

Lemma string_app_assoc (a b c : string) :
  ((a ++ b) ++ c)%string = (a ++ b ++ c)%string.
Proof.
  induction a as [|ch a IH]; simpl; [reflexivity|]. rewrite IH. reflexivity.
Qed.


Lemma print_kinds_tags (m : Z) : print_kinds m = concat_text (kind_tags m).
Proof.
  unfold print_kinds, kind_tags, tracked_kinds. cbn [List.filter fst].
  destruct (test_mask m IN_OPEN), (test_mask m IN_CLOSE_NOWRITE),
    (test_mask m IN_CLOSE_WRITE), (test_mask m IN_MOVED_FROM),
    (test_mask m IN_MOVED_TO); reflexivity.
Qed.


Lemma print_kinds_untracked (m : Z) :
  untracked m -> print_kinds m = EmptyString.
Proof.
  unfold untracked, tracked_kinds. rewrite !Forall_cons. cbn [fst].
  intros (H1 & H2 & H3 & H4 & H5 & _).
  unfold print_kinds. rewrite H1, H2, H3, H4, H5. reflexivity.
Qed.


Lemma report_event_text (wd : list Z) (argc : Z) (argv : list string)
  (buf : list byte) (off : Z) (ev : inotify_event) (text : string) :
  report_event wd argc argv buf off = Some (ev, text) ->
  exists name : string,
    print_name buf off ev = Some name /\
    text = (print_kinds (ev_mask ev) ++ print_dir wd argc argv (ev_wd ev) ++
            name ++ print_object (ev_mask ev))%string.
Proof.
  unfold report_event.
  destruct (load_event buf off) as [ev'|]; [|discriminate].
  cbn -[print_name print_kinds print_dir print_object].
  destruct (print_name buf off ev') as [name|] eqn:Hname; [|discriminate].
  cbn -[print_kinds print_dir print_object].
  intros [= <- <-]. exists name. split; [assumption|reflexivity].
Qed.


(** ** Looking a watch id up in the table *)

Lemma find_watch_None (wd : list Z) (id : Z) (n : nat) :
  forall i : nat,
    find_watch n i wd id = None <->
    (forall j : nat, (i <= j < i + n)%nat -> wd_at wd j <> id).
Proof.
  induction n as [|n IH]; intros i; cbn [find_watch].
  - split; [intros _ j Hj; lia|reflexivity].
  - destruct (Z.eqb_spec (wd_at wd i) id) as [Heq|Hne].
    + split; [discriminate|]. intros H. exfalso. apply (H i); [lia|exact Heq].
    + rewrite IH. split; intros H j Hj.
      * destruct (decide (j = i)) as [->|Hji]; [exact Hne|apply H; lia].
      * apply H. lia.
Qed.

Lemma find_watch_Some (wd : list Z) (id : Z) (n : nat) :
  forall i k : nat,
    find_watch n i wd id = Some k <->
    ((i <= k < i + n)%nat /\ wd_at wd k = id /\
     forall j : nat, (i <= j < k)%nat -> wd_at wd j <> id).
Proof.
  induction n as [|n IH]; intros i k; cbn [find_watch].
  - split; [discriminate|intros [Hk _]; lia].
  - destruct (Z.eqb_spec (wd_at wd i) id) as [Heq|Hne].
    + split.
      * intros [= <-]. split; [lia|]. split; [exact Heq|]. intros j Hj. lia.
      * intros (Hk & _ & Hfirst). f_equal.
        destruct (decide (k = i)) as [->|Hki]; [reflexivity|].
        exfalso. apply (Hfirst i); [lia|exact Heq].
    + rewrite IH. split.
      * intros (Hk & Hid & Hfirst). split; [lia|]. split; [exact Hid|].
        intros j Hj. destruct (decide (j = i)) as [->|Hji]; [exact Hne|].
        apply Hfirst. lia.
      * intros (Hk & Hid & Hfirst).
        assert (k <> i) by (intros ->; contradiction).
        split; [lia|]. split; [exact Hid|]. intros j Hj. apply Hfirst. lia.
Qed.

Lemma resolve_None (wd : list Z) (argc id : Z) :
  resolve wd argc id = None <-> no_match wd argc id.
Proof.
  unfold resolve, no_match. rewrite find_watch_None.
  split; intros H j; [intros H1 H2|intros Hj]; apply H; lia.
Qed.

Lemma resolve_Some (wd : list Z) (argc id : Z) (k : nat) :
  resolve wd argc id = Some k <-> first_match wd argc id k.
Proof.
  unfold resolve, first_match. rewrite find_watch_Some.
  split; intros (Hk & Hid & Hfirst).
  - repeat split; [lia|lia|exact Hid|exact Hfirst].
  - destruct Hfirst as [Hid' Hfirst]. repeat split; [lia|lia|exact Hid'|exact Hfirst].
Qed.

Lemma first_match_unique (wd : list Z) (argc id : Z) (k k' : nat) :
  first_match wd argc id k -> first_match wd argc id k' -> k = k'.
Proof.
  intros Hk Hk'. apply resolve_Some in Hk, Hk'. congruence.
Qed.

Lemma print_dir_no_match (wd : list Z) (argc : Z) (argv : list string)
  (id : Z) :
  no_match wd argc id -> print_dir wd argc argv id = EmptyString.
Proof.
  intros H. apply resolve_None in H.
  unfold print_dir, resolve_path. rewrite H. reflexivity.
Qed.

Lemma print_dir_first_match (wd : list Z) (argc : Z) (argv : list string)
  (id : Z) (k : nat) :
  first_match wd argc id k ->
  print_dir wd argc argv id = (argv_at argv k ++ "/")%string.
Proof.
  intros H. apply resolve_Some in H.
  unfold print_dir, resolve_path. rewrite H. reflexivity.
Qed.

(** ** Registration *)

Section Registration.
Variables (fd : Z) (argv : list string) (e : env).

Lemma wd_at_insert_eq (wd : list Z) (i : nat) (r : Z) :
  (i < length wd)%nat -> wd_at (<[i := r]> wd) i = r.
Proof.
  intros Hi. unfold wd_at. rewrite list_lookup_insert_eq by exact Hi.
  reflexivity.
Qed.

Lemma wd_at_insert_ne (wd : list Z) (i j : nat) (r : Z) :
  i <> j -> wd_at (<[i := r]> wd) j = wd_at wd j.
Proof.
  intros Hij. unfold wd_at. rewrite list_lookup_insert_ne by exact Hij.
  reflexivity.
Qed.

(** After a registration loop that did not exit, every slot it visited
    holds the id that registration returned, and no other slot changed. *)
Lemma add_watches_table (n : nat) :
  forall (i : nat) (wd wd' : list Z) (tr : list io_event),
    add_watches n i fd argv e wd = (tr, Some wd') ->
    (i + n <= length wd)%nat ->
    length wd' = length wd /\
    (forall j : nat, (i <= j < i + n)%nat ->
       wd_at wd' j = registered_id e argv j /\ registered_id e argv j <> -1) /\
    (forall j : nat, ~ (i <= j < i + n)%nat -> wd_at wd' j = wd_at wd j).
Proof.
  induction n as [|n IH]; intros i wd wd' tr; cbn [add_watches].
  - intros [= <- <-] _. split; [reflexivity|]. split; [intros j Hj; lia|].
    reflexivity.
  - destruct (add_watch_result e i (argv_at argv i)) as [r errno] eqn:Hr.
    destruct (Z.eqb_spec r (-1)) as [|Hne]; [discriminate|].
    destruct (add_watches n (S i) fd argv e (<[i := r]> wd)) as [tr1 res] eqn:Hrec.
    intros [= <- ->] Hlen.
    destruct (IH _ _ _ _ Hrec) as (Hl & Hin & Hout).
    { rewrite length_insert. lia. }
    rewrite length_insert in Hl.
    split; [exact Hl|]. split.
    + intros j Hj. destruct (decide (j = i)) as [->|Hji].
      * rewrite Hout by lia. rewrite wd_at_insert_eq by lia.
        unfold registered_id. rewrite Hr. split; [reflexivity|exact Hne].
      * apply Hin. lia.
    + intros j Hj. rewrite Hout by lia. apply wd_at_insert_ne. lia.
Qed.

(** A registration loop that meets its first failure at index [k] makes
    the calls for [i .. k], reports [argv[k]], and stops. *)
Lemma add_watches_fail (n : nat) :
  forall (i k : nat) (wd : list Z),
    (i <= k < i + n)%nat ->
    registered_id e argv k = -1 ->
    (forall j : nat, (i <= j < k)%nat -> registered_id e argv j <> -1) ->
    add_watches n i fd argv e wd
    = (((fun j => AddWatch fd (argv_at argv j) WATCH_MASK) <$> seq i (k - i)) ++
       [AddWatch fd (argv_at argv k) WATCH_MASK;
        Stderr ("Cannot watch '" ++ argv_at argv k ++ "'" ++ newline);
        Perror "inotify_add_watch"
          (snd (add_watch_result e k (argv_at argv k)))],
       None).
Proof.
  induction n as [|n IH]; intros i k wd Hk Hfail Hok; [lia|].
  cbn [add_watches].
  destruct (add_watch_result e i (argv_at argv i)) as [r errno] eqn:Hr.
  destruct (decide (k = i)) as [->|Hki].
  - unfold registered_id in Hfail. rewrite Hr in Hfail. simpl in Hfail.
    subst r. rewrite Hr, Nat.sub_diag. reflexivity.
  - assert (Hne : r <> -1).
    { specialize (Hok i). unfold registered_id in Hok. rewrite Hr in Hok.
      apply Hok. lia. }
    rewrite (proj2 (Z.eqb_neq r (-1)) Hne).
    rewrite (IH (S i) k) by (first [lia | assumption | intros j Hj; apply Hok; lia]).
    replace (k - i)%nat with (S (k - S i)) by lia. reflexivity.
Qed.
End Registration.

(** ** One pass of [handle_events] *)

Section Drain.
Variables (fd : Z) (wd : list Z) (argc : Z) (argv : list string).

Lemma handle_events_loop_eagain (buf : list byte) (rest : list read_result) :
  handle_events_loop fd wd argc argv buf (ReadError EAGAIN :: rest)
  = ([Read fd BUF_SIZE], Ret rest).
Proof. reflexivity. Qed.

Lemma handle_events_loop_error (buf : list byte) (errno : Z)
  (rest : list read_result) :
  errno <> EAGAIN ->
  handle_events_loop fd wd argc argv buf (ReadError errno :: rest)
  = ([Read fd BUF_SIZE; Perror "read" errno], Halt (Exited EXIT_FAILURE)).
Proof.
  intros Hne. cbn [handle_events_loop sys_read].
  rewrite (proj2 (Z.eqb_neq errno EAGAIN) Hne). reflexivity.
Qed.

Lemma step_events_expected (off : Z) (rs : list record) :
  step_events (expected_steps wd argc argv off rs)
  = (fun r => Stdout (record_text wd argc argv r)) <$> rs.
Proof.
  revert off. induction rs as [|r rs IH]; intros off; [reflexivity|].
  unfold step_events in *. simpl. rewrite IH. reflexivity.
Qed.

Lemma good_batch_length (rs : list record) :
  good_batch rs -> 0 < Z.of_nat (length (encode_all rs)) <= BUF_SIZE.
Proof.
  intros (Hne & _ & Hle). split; [|exact Hle].
  destruct rs as [|r rs]; [contradiction|].
  rewrite encode_all_cons, length_app. unfold encode.
  rewrite length_app, header_bytes_length. lia.
Qed.

Lemma handle_events_loop_batch (buf : list byte) (rs : list record)
  (rest : list read_result) :
  good_batch rs ->
  handle_events_loop fd wd argc argv buf (ReadData (encode_all rs) :: rest)
  = (batch_trace fd wd argc argv rs ++
       fst (handle_events_loop fd wd argc argv
              (encode_all rs ++ drop (length (encode_all rs)) buf) rest),
     snd (handle_events_loop fd wd argc argv
            (encode_all rs ++ drop (length (encode_all rs)) buf) rest)).
Proof.
  intros Hgood. pose proof (good_batch_length rs Hgood) as Hlen.
  destruct Hgood as (_ & Hwf & _).
  cbn [handle_events_loop sys_read].
  rewrite take_ge by (unfold BUF_SIZE in *; lia).
  set (data := encode_all rs) in *.
  set (buf' := data ++ drop (length data) buf).
  rewrite (proj2 (Z.eqb_neq (Z.of_nat (length data)) (-1))) by lia.
  cbn [andb].
  rewrite (proj2 (Z.leb_gt (Z.of_nat (length data)) 0)) by lia.
  unfold decode_events.
  change buf' with ([] ++ buf').
  subst buf' data.
  rewrite (events_loop_encoded wd argc argv rs _ [] _ 0
             (Z.of_nat (length (encode_all rs))) Hwf);
    [|rewrite Nat2Z.id; apply encode_all_records|reflexivity|lia].
  cbn [app].
  destruct (handle_events_loop fd wd argc argv _ rest) as [tr o].
  rewrite step_events_expected. reflexivity.
Qed.

Lemma handle_events_loop_batches (batches : list (list record)) :
  forall (buf : list byte) (errno : Z) (rest : list read_result),
    Forall good_batch batches ->
    handle_events_loop fd wd argc argv buf
      (deliver batches ++ ReadError errno :: rest)
    = if errno =? EAGAIN then
        (concat (batch_trace fd wd argc argv <$> batches) ++
           [Read fd BUF_SIZE], Ret rest)
      else
        (concat (batch_trace fd wd argc argv <$> batches) ++
           [Read fd BUF_SIZE; Perror "read" errno],
         Halt (Exited EXIT_FAILURE)).
Proof.
  induction batches as [|rs batches IH]; intros buf errno rest Hgood.
  - cbn [deliver fmap list_fmap app concat].
    destruct (Z.eqb_spec errno EAGAIN) as [->|Hne].
    + apply handle_events_loop_eagain.
    + apply handle_events_loop_error, Hne.
  - apply Forall_cons_1 in Hgood as [Hrs Hgood].
    change (deliver (rs :: batches) ++ ReadError errno :: rest)
      with (ReadData (encode_all rs) :: deliver batches ++ ReadError errno :: rest).
    rewrite (handle_events_loop_batch buf rs _ Hrs), (IH _ errno rest Hgood).
    change (concat (batch_trace fd wd argc argv <$> rs :: batches))
      with (batch_trace fd wd argc argv rs ++
            concat (batch_trace fd wd argc argv <$> batches)).
    destruct (errno =? EAGAIN); cbn [fst snd]; rewrite <- app_assoc;
      reflexivity.
Qed.
End Drain.

(** ** What the loops can put in a trace *)

Lemma count_events_app (p : io_event -> bool) (a b : list io_event) :
  count_events p (a ++ b) = (count_events p a + count_events p b)%nat.
Proof.
  unfold count_events. rewrite List.filter_app, length_app. reflexivity.
Qed.

Lemma count_events_cons (p : io_event -> bool) (ev : io_event)
  (tr : list io_event) :
  count_events p (ev :: tr)
  = ((if p ev then 1 else 0) + count_events p tr)%nat.
Proof.
  unfold count_events. simpl. destruct (p ev); reflexivity.
Qed.

Lemma not_cleanup_count (tr : list io_event) :
  Forall not_cleanup tr ->
  count_events is_close tr = O /\ count_events is_free tr = O.
Proof.
  induction 1 as [|ev tr [Hc Hf] _ [IHc IHf]]; [split; reflexivity|].
  rewrite !count_events_cons, Hc, Hf, IHc, IHf. split; reflexivity.
Qed.

Local Ltac quiet := repeat (constructor; try (split; reflexivity)).

Lemma add_watches_quiet (fd : Z) (argv : list string) (e : env) (n : nat) :
  forall (i : nat) (wd : list Z),
    Forall not_cleanup (fst (add_watches n i fd argv e wd)).
Proof.
  induction n as [|n IH]; intros i wd; cbn [add_watches]; [constructor|].
  destruct (add_watch_result e i (argv_at argv i)) as [r errno].
  destruct (r =? -1); [quiet|].
  specialize (IH (S i) (<[i := r]> wd)).
  destruct (add_watches n (S i) fd argv e _) as [tr res].
  constructor; [split; reflexivity|exact IH].
Qed.

Lemma drain_stdin_reads (script : list read_result) :
  Forall (fun ev => ev = Read STDIN_FILENO 1) (fst (drain_stdin script)).
Proof.
  induction script as [|r script IH]; cbn [drain_stdin]; [quiet|].
  destruct (sys_read 1 [x00] r) as [[n errno] buf].
  destruct ((0 <? n) && negb (default 0 (load_u8 buf 0) =? 10)); [|quiet].
  destruct (drain_stdin script) as [tr b]. constructor; [reflexivity|exact IH].
Qed.

Lemma drain_stdin_quiet (script : list read_result) :
  Forall not_cleanup (fst (drain_stdin script)).
Proof.
  eapply Forall_impl; [apply drain_stdin_reads|].
  intros ev ->. split; reflexivity.
Qed.

Lemma step_events_quiet (steps : list step) :
  Forall not_cleanup (step_events steps).
Proof.
  unfold step_events. apply Forall_fmap, Forall_true.
  intros s. split; reflexivity.
Qed.

Lemma handle_events_loop_inv (fd : Z) (wd : list Z) (argc : Z)
  (argv : list string) (script : list read_result) :
  forall buf : list byte,
    Forall not_cleanup (fst (handle_events_loop fd wd argc argv buf script)) /\
    snd (handle_events_loop fd wd argc argv buf script)
    <> Halt (Exited EXIT_SUCCESS).
Proof.
  induction script as [|r script IH]; intros buf; cbn [handle_events_loop].
  - split; [quiet|discriminate].
  - destruct (sys_read BUF_SIZE buf r) as [[len errno] buf'].
    destruct ((len =? -1) && negb (errno =? EAGAIN));
      [split; [quiet|discriminate]|].
    destruct (len <=? 0); [split; [quiet|discriminate]|].
    destruct (decode_events wd argc argv buf' len) as [steps e].
    pose proof (step_events_quiet steps) as Hsteps.
    destruct e as [cursor|cursor|].
    + specialize (IH buf').
      destruct (handle_events_loop fd wd argc argv buf' script) as [tr o].
      cbn [fst snd] in *. destruct IH as [IHtr IHo].
      split; [|exact IHo].
      constructor; [split; reflexivity|]. apply Forall_app. split; assumption.
    + split; [|discriminate]. constructor; [split; reflexivity|exact Hsteps].
    + split; [|discriminate]. constructor; [split; reflexivity|exact Hsteps].
Qed.

Lemma main_loop_inv (fd : Z) (wd : list Z) (argc : Z) (argv : list string)
  (e : env) (polls : list poll_result) :
  forall ino : list read_result,
    Forall not_cleanup (fst (main_loop fd wd argc argv e polls ino)) /\
    snd (main_loop fd wd argc argv e polls ino) <> Halt (Exited EXIT_SUCCESS).
Proof.
  induction polls as [|p polls IH]; intros ino; cbn [main_loop].
  - split; [quiet|discriminate].
  - assert (Hnext : forall ino',
      Forall not_cleanup
        (fst (let '(tr, o) := main_loop fd wd argc argv e polls ino' in
              (Poll :: tr, o))) /\
      snd (let '(tr, o) := main_loop fd wd argc argv e polls ino' in
           (Poll :: tr, o)) <> Halt (Exited EXIT_SUCCESS)).
    { intros ino'. specialize (IH ino').
      destruct (main_loop fd wd argc argv e polls ino') as [tr o].
      cbn [fst snd] in *. destruct IH as [IHtr IHo].
      split; [constructor; [split; reflexivity|exact IHtr]|exact IHo]. }
    destruct (poll_num p =? -1).
    { destruct (poll_errno p =? EINTR); [apply Hnext|].
      split; [quiet|discriminate]. }
    destruct (0 <? poll_num p); [|apply Hnext].
    destruct (test_mask (revents0 p) POLLIN).
    { pose proof (drain_stdin_quiet (stdin_script e)) as Hq.
      destruct (drain_stdin (stdin_script e)) as [tr finished].
      cbn [fst snd] in *.
      split; [constructor; [split; reflexivity|exact Hq]|].
      destruct finished; discriminate. }
    destruct (test_mask (revents1 p) POLLIN); [|apply Hnext].
    unfold handle_events.
    pose proof (handle_events_loop_inv fd wd argc argv ino (stack_bytes e))
      as [Htr Ho].
    destruct (handle_events_loop fd wd argc argv (stack_bytes e) ino)
      as [tr [ino'|h]]; cbn [fst snd] in *.
    + specialize (IH ino').
      destruct (main_loop fd wd argc argv e polls ino') as [tr' o].
      cbn [fst snd] in *. destruct IH as [IHtr IHo].
      split; [|exact IHo].
      constructor; [split; reflexivity|]. apply Forall_app. split; assumption.
    + split; [constructor; [split; reflexivity|exact Htr]|].
      intros [= ->]. apply Ho. reflexivity.
Qed.

(** ** The console *)

Lemma byte_to_Z_newline (b : byte) : byte_to_Z b = 10 -> b = x0a.
Proof.
  unfold byte_to_Z. intros H.
  assert (Hn : Byte.to_N b = 10%N) by lia.
  pose proof (Byte.of_to_N b) as Hb. rewrite Hn in Hb.
  vm_compute in Hb. congruence.
Qed.

Lemma drain_stdin_line (typed : list byte) (rest : list read_result) :
  x0a ∉ typed ->
  drain_stdin (keystrokes typed ++ ReadData [x0a] :: rest)
  = (replicate (S (length typed)) (Read STDIN_FILENO 1), true).
Proof.
  induction typed as [|b typed IH]; intros Hnot; [reflexivity|].
  apply not_elem_of_cons in Hnot as [Hb Hnot].
  change (keystrokes (b :: typed) ++ ReadData [x0a] :: rest)
    with (ReadData [b] :: keystrokes typed ++ ReadData [x0a] :: rest).
  cbn [drain_stdin]. rewrite (IH Hnot).
  assert (Hread : sys_read 1 [x00] (ReadData [b]) = (1, 0, [b]))
    by reflexivity.
  rewrite Hread.
  assert (Hcmp : (default 0 (load_u8 [b] 0) =? 10) = false).
  { apply Z.eqb_neq. intros H. apply Hb. symmetry.
    apply byte_to_Z_newline. exact H. }
  rewrite Hcmp. reflexivity.
Qed.

(** ** The iteration bound of the model is never met *)

Lemma handle_events_loop_fuel (fd : Z) (wd : list Z) (argc : Z)
  (argv : list string) (script : list read_result) :
  forall buf : list byte,
    snd (handle_events_loop fd wd argc argv buf script) <> Halt OutOfFuel.
Proof.
  induction script as [|r script IH]; intros buf; cbn [handle_events_loop];
    [discriminate|].
  destruct (sys_read BUF_SIZE buf r) as [[len errno] buf'].
  destruct ((len =? -1) && negb (errno =? EAGAIN)); [discriminate|].
  destruct (len <=? 0); [discriminate|].
  pose proof (decode_events_fuel wd argc argv buf' len) as Hfuel.
  destruct (decode_events wd argc argv buf' len) as [steps [cursor|cursor|]];
    cbn [snd] in *; [|discriminate|contradiction].
  specialize (IH buf').
  destruct (handle_events_loop fd wd argc argv buf' script) as [tr o].
  exact IH.
Qed.

Lemma main_loop_fuel (fd : Z) (wd : list Z) (argc : Z) (argv : list string)
  (e : env) (polls : list poll_result) :
  forall ino : list read_result,
    snd (main_loop fd wd argc argv e polls ino) <> Halt OutOfFuel.
Proof.
  induction polls as [|p polls IH]; intros ino; cbn [main_loop];
    [discriminate|].
  assert (Hnext : forall ino',
    snd (let '(tr, o) := main_loop fd wd argc argv e polls ino' in
         (Poll :: tr, o)) <> Halt OutOfFuel).
  { intros ino'. specialize (IH ino').
    destruct (main_loop fd wd argc argv e polls ino') as [tr o]. exact IH. }
  destruct (poll_num p =? -1).
  { destruct (poll_errno p =? EINTR); [apply Hnext|discriminate]. }
  destruct (0 <? poll_num p); [|apply Hnext].
  destruct (test_mask (revents0 p) POLLIN).
  { destruct (drain_stdin (stdin_script e)) as [tr [|]]; discriminate. }
  destruct (test_mask (revents1 p) POLLIN); [|apply Hnext].
  unfold handle_events.
  pose proof (handle_events_loop_fuel fd wd argc argv ino (stack_bytes e))
    as Hpass.
  destruct (handle_events_loop fd wd argc argv (stack_bytes e) ino)
    as [tr [ino'|h]]; cbn [snd] in *.
  - specialize (IH ino').
    destruct (main_loop fd wd argc argv e polls ino') as [tr' o]. exact IH.
  - intros [= ->]. apply Hpass. reflexivity.
Qed.

Lemma main_fuel (argv : list string) (e : env) :
  snd (main argv e) <> OutOfFuel.
Proof.
  unfold main.
  destruct (Z.of_nat (length argv) <? 2); [discriminate|].
  destruct (init_result e) as [fd errno].
  destruct (fd =? -1); [discriminate|].
  destruct (calloc_result e); [|discriminate].
  unfold watch_and_listen.
  destruct (register_all fd (Z.of_nat (length argv)) argv e) as [tr [wd|]];
    [|discriminate].
  pose proof (main_loop_fuel fd wd (Z.of_nat (length argv)) argv e
                (poll_script e) (inotify_script e)) as Hloop.
  destruct (main_loop fd wd (Z.of_nat (length argv)) argv e (poll_script e)
              (inotify_script e)) as [tr' [[]|h]]; cbn [snd] in *;
    [discriminate|].
  intros ->. apply Hloop. reflexivity.
Qed.

(** ** Exit routes of [main] *)

Lemma filter_add_watch_calls (p : io_event -> bool) (fd : Z)
  (argv : list string) (l : list nat) :
  (forall path, p (AddWatch fd path WATCH_MASK) = false) ->
  List.filter p ((fun j => AddWatch fd (argv_at argv j) WATCH_MASK) <$> l) = [].
Proof.
  intros Hp. induction l as [|j l IH]; [reflexivity|].
  cbn [fmap list_fmap List.filter]. rewrite Hp. exact IH.
Qed.

(** Either the run ended through the [break] and lines 169-174, or it
    stopped before them having closed and freed nothing. *)
Lemma watch_and_listen_routes (fd : Z) (argc : Z) (argv : list string)
  (e : env) :
  (snd (watch_and_listen fd argc argv e) = Exited EXIT_SUCCESS /\
   exists tr0 : list io_event,
     fst (watch_and_listen fd argc argv e) = tr0 ++ [Close fd; Free] /\
     Forall not_cleanup tr0) \/
  (snd (watch_and_listen fd argc argv e) <> Exited EXIT_SUCCESS /\
   Forall not_cleanup (fst (watch_and_listen fd argc argv e))).
Proof.
  unfold watch_and_listen, register_all.
  pose proof (add_watches_quiet fd argv e (Z.to_nat (argc - 1)) 1
                (replicate (Z.to_nat argc) 0)) as Hreg.
  destruct (add_watches (Z.to_nat (argc - 1)) 1 fd argv e _) as [tr [wd|]];
    cbn [fst snd] in *.
  - pose proof (main_loop_inv fd wd argc argv e (poll_script e)
                  (inotify_script e)) as [Hloop Hexit].
    destruct (main_loop fd wd argc argv e (poll_script e) (inotify_script e))
      as [tr' [[]|h]]; cbn [fst snd] in *.
    + left. split; [reflexivity|].
      exists (tr ++ Stdout ("Listening for events." ++ newline) :: tr' ++
              [Stdout ("Listening for events stopped." ++ newline)]).
      split.
      * rewrite <- !app_assoc. cbn [app]. rewrite <- !app_assoc. reflexivity.
      * apply Forall_app. split; [exact Hreg|].
        constructor; [split; reflexivity|].
        apply Forall_app. split; [exact Hloop|]. quiet.
    + right. split; [intros ->; apply Hexit; reflexivity|].
      apply Forall_app. split; [exact Hreg|].
      constructor; [split; reflexivity|exact Hloop].
  - right. split; [discriminate|exact Hreg].
Qed.

Lemma main_routes (argv : list string) (e : env) :
  (snd (main argv e) = Exited EXIT_SUCCESS /\
   exists tr0 : list io_event,
     fst (main argv e) = tr0 ++ [Close (fst (init_result e)); Free] /\
     Forall not_cleanup tr0) \/
  (snd (main argv e) <> Exited EXIT_SUCCESS /\
   Forall not_cleanup (fst (main argv e))).
Proof.
  unfold main.
  destruct (Z.of_nat (length argv) <? 2);
    [right; split; [discriminate|quiet]|].
  destruct (init_result e) as [fd errno].
  destruct (fd =? -1); [right; split; [discriminate|quiet]|].
  destruct (calloc_result e) as [|errno'];
    [|right; split; [discriminate|quiet]].
  pose proof (watch_and_listen_routes fd (Z.of_nat (length argv)) argv e)
    as Hroutes.
  destruct (watch_and_listen fd (Z.of_nat (length argv)) argv e) as [tr h].
  cbn [fst snd] in *.
  destruct Hroutes as [(Hh & tr0 & Htr & Hq)|(Hh & Hq)].
  - left. split; [exact Hh|].
    exists (Stdout ("Press ENTER key to exit." ++ newline) ::
            InotifyInit1 IN_NONBLOCK :: Calloc (Z.of_nat (length argv)) :: tr0).
    split; [rewrite Htr; reflexivity|]. quiet. exact Hq.
  - right. split; [exact Hh|]. quiet. exact Hq.
Qed.

(** ** A whole run

    Two directories are watched.  The first wake-up finds two batches
    pending, the second wait is interrupted, the third finds the console
    ready: the operator typed "q" and ENTER. *)
Example main_sample_run :
  main sample_argv sample_env
  = ([Stdout ("Press ENTER key to exit." ++ newline);
      InotifyInit1 IN_NONBLOCK; Calloc 3;
      AddWatch 3 "/tmp/a" WATCH_MASK; AddWatch 3 "/tmp/b" WATCH_MASK;
      Stdout ("Listening for events." ++ newline);
      Poll; Read 3 BUF_SIZE;
      Stdout ("IN_OPEN: IN_MOVED_FROM: /tmp/a/x.txt [file]" ++ newline);
      Stdout ("IN_CLOSE_WRITE: /tmp/b/ [directory]" ++ newline);
      Read 3 BUF_SIZE;
      Stdout ("y [file]" ++ newline);
      Read 3 BUF_SIZE;
      Poll; Poll; Read STDIN_FILENO 1; Read STDIN_FILENO 1;
      Stdout ("Listening for events stopped." ++ newline);
      Close 3; Free], Exited EXIT_SUCCESS).
Proof. vm_compute. reflexivity. Qed.

(** * The claims *)

Local Ltac well_formed_record :=
  unfold well_formed, name_length; cbn [r_wd r_mask r_cookie r_name];
  split; [vm_compute; split; congruence|];
  split; [vm_compute; split; congruence|];
  split; [vm_compute; split; congruence|];
  split; [vm_compute; reflexivity|];
  first [left; reflexivity | right; vm_compute; repeat constructor].

Lemma sample_records_well_formed : Forall well_formed sample_records.
Proof.
  unfold sample_records.
  apply List.Forall_cons; [well_formed_record|].
  apply List.Forall_cons; [well_formed_record|].
  apply List.Forall_cons; [well_formed_record|].
  apply List.Forall_nil.
Qed.

(** C1.  A buffer made of N well-formed records, one after the other: the
    decoding loop of [handle_events] leaves through its loop condition
    after exactly N iterations, the i-th of which decodes the header of
    the i-th record and advances the cursor by the header size plus that
    record's name length; the advances add up to the valid length, which
    is also where the cursor stops.  Bytes lying in the array after the
    valid length do not matter. *)
Theorem decode_events_round_trip (wd : list Z) (argc : Z) (argv : list string)
  (rs : list record) (stale : list byte) :
  Forall well_formed rs ->
  let len := Z.of_nat (length (encode_all rs)) in
  let result := decode_events wd argc argv (encode_all rs ++ stale) len in
  result = (expected_steps wd argc argv 0 rs, LoopDone len) /\
  length (fst result) = length rs /\
  Forall2 (fun s r => st_event s = header_of r /\
                      advance s = EVENT_SIZE + name_length r)
    (fst result) rs /\
  sum_Z (advance <$> fst result) = len.
Proof.
  intros Hwf len result.
  assert (Hres : result = (expected_steps wd argc argv 0 rs, LoopDone len)).
  { subst result. unfold decode_events.
    change (encode_all rs ++ stale) with ([] ++ encode_all rs ++ stale).
    apply events_loop_encoded; [exact Hwf| |reflexivity|subst len; lia].
    subst len. rewrite Nat2Z.id. apply encode_all_records. }
  rewrite Hres. cbn [fst].
  split; [reflexivity|]. split; [apply expected_steps_length|].
  split; [apply expected_steps_advance|apply expected_steps_sum].
Qed.

Lemma decode_events_round_trip_witness :
  Forall well_formed sample_records /\
  decode_events sample_wd 3 sample_argv
    (encode_all sample_records ++ sample_stale) 68
  = (expected_steps sample_wd 3 sample_argv 0 sample_records, LoopDone 68) /\
  sum_Z (advance <$> fst (decode_events sample_wd 3 sample_argv
                            (encode_all sample_records ++ sample_stale) 68))
  = 68.
Proof.
  split; [exact sample_records_well_formed|].
  pose proof (decode_events_round_trip sample_wd 3 sample_argv sample_records
                sample_stale sample_records_well_formed) as (H1 & _ & _ & H4).
  split; [exact H1|exact H4].
Defined.

Lemma kind_tags_elem (m : Z) (tag : string) :
  tag ∈ kind_tags m <->
  exists bit : Z, (bit, tag) ∈ tracked_kinds /\ Z.land m bit <> 0.
Proof.
  unfold kind_tags. rewrite list_elem_of_fmap. split.
  - intros ([bit tag'] & -> & Hin).
    apply list_elem_of_In, List.filter_In in Hin as [Hin Hbit].
    exists bit. split; [apply list_elem_of_In, Hin|].
    cbn [fst] in Hbit. unfold test_mask in Hbit.
    apply negb_true_iff, Z.eqb_neq in Hbit. exact Hbit.
  - intros (bit & Hin & Hbit). exists (bit, tag). split; [reflexivity|].
    apply list_elem_of_In, List.filter_In. split; [apply list_elem_of_In, Hin|].
    cbn [fst]. unfold test_mask. apply negb_true_iff, Z.eqb_neq. exact Hbit.
Qed.

(** C2.  The line written for a decoded record is exactly: the tags of the
    tracked kinds its mask carries, one tag (ending in the separator) for
    each bit that is set and none for a bit that is clear, in the fixed
    order Opened, ClosedNoWrite, ClosedWrite, MovedFrom, MovedTo; then the
    directory segment, the name and the object annotation, and nothing
    else.  With both the Opened and the MovedFrom bit set the line holds
    both tags, Opened first; between them stand only the tags of the two
    Closed kinds, and after them only the MovedTo tag, if its bit is set,
    and the rest of the line. *)
Theorem report_event_kind_tags (wd : list Z) (argc : Z) (argv : list string)
  (buf : list byte) (off : Z) (ev : inotify_event) (text : string) :
  report_event wd argc argv buf off = Some (ev, text) ->
  exists name : string,
    print_name buf off ev = Some name /\
    text = (concat_text (kind_tags (ev_mask ev)) ++
            print_dir wd argc argv (ev_wd ev) ++ name ++
            print_object (ev_mask ev))%string /\
    (forall tag : string,
       tag ∈ kind_tags (ev_mask ev) <->
       exists bit : Z,
         (bit, tag) ∈ tracked_kinds /\ Z.land (ev_mask ev) bit <> 0) /\
    (test_mask (ev_mask ev) IN_OPEN = true ->
     test_mask (ev_mask ev) IN_MOVED_FROM = true ->
     text = ("IN_OPEN: " ++
             ((if test_mask (ev_mask ev) IN_CLOSE_NOWRITE
               then "IN_CLOSE_NOWRITE: " else "") ++
              (if test_mask (ev_mask ev) IN_CLOSE_WRITE
               then "IN_CLOSE_WRITE: " else "")) ++
             "IN_MOVED_FROM: " ++
             (if test_mask (ev_mask ev) IN_MOVED_TO
              then "IN_MOVED_TO: " else "") ++
             print_dir wd argc argv (ev_wd ev) ++ name ++
             print_object (ev_mask ev))%string).
Proof.
  intros Hrep. apply report_event_text in Hrep as (name & Hname & ->).
  exists name. split; [exact Hname|].
  set (tail := (print_dir wd argc argv (ev_wd ev) ++ name ++
                print_object (ev_mask ev))%string).
  split; [rewrite print_kinds_tags; reflexivity|].
  split; [intros tag; apply kind_tags_elem|].
  intros Hopen Hfrom.
  unfold print_kinds. rewrite Hopen, Hfrom.
  destruct (test_mask (ev_mask ev) IN_CLOSE_NOWRITE),
    (test_mask (ev_mask ev) IN_CLOSE_WRITE),
    (test_mask (ev_mask ev) IN_MOVED_TO); reflexivity.
Qed.

Lemma report_event_kind_tags_witness :
  report_event sample_wd 3 sample_argv (encode sample_open_moved) 0
  = Some (header_of sample_open_moved,
          ("IN_OPEN: IN_MOVED_FROM: /tmp/a/x.txt [file]" ++ newline)%string) /\
  kind_tags (r_mask sample_open_moved)
  = ["IN_OPEN: "%string; "IN_MOVED_FROM: "%string] /\
  ("IN_OPEN: IN_MOVED_FROM: /tmp/a/x.txt [file]" ++ newline)%string
  = (concat_text ["IN_OPEN: "%string; "IN_MOVED_FROM: "%string] ++
     "/tmp/a/" ++ "x.txt" ++ " [file]" ++ newline)%string.
Proof.
  assert (Hrep : report_event sample_wd 3 sample_argv
                   (encode sample_open_moved) 0
                 = Some (header_of sample_open_moved,
                         ("IN_OPEN: IN_MOVED_FROM: /tmp/a/x.txt [file]" ++
                          newline)%string))
    by (vm_compute; reflexivity).
  split; [exact Hrep|]. split; [vm_compute; reflexivity|].
  destruct (report_event_kind_tags _ _ _ _ _ _ _ Hrep)
    as (name & Hname & Htext & _ & _).
  assert (name = "x.txt"%string) as ->
    by (vm_compute in Hname; congruence).
  exact Htext.
Defined.





(** C10.  Whenever the header and the name of a record can be read, its
    line is written, whatever the watch table holds.  The line carries at
    most one directory segment: none at all when no entry of the table
    (from index 1) holds the record's watch id, and otherwise the path of
    the first entry that does, followed by the path separator. *)
Theorem report_event_directory_segment (wd : list Z) (argc : Z)
  (argv : list string) (buf : list byte) (off : Z) (ev : inotify_event)
  (name : string) :
  load_event buf off = Some ev ->
  print_name buf off ev = Some name ->
  exists seg : string,
    report_event wd argc argv buf off
    = Some (ev, (print_kinds (ev_mask ev) ++ seg ++ name ++
                 print_object (ev_mask ev))%string) /\
    (no_match wd argc (ev_wd ev) -> seg = EmptyString) /\
    (forall k : nat, first_match wd argc (ev_wd ev) k ->
       seg = (argv_at argv k ++ "/")%string) /\
    (no_match wd argc (ev_wd ev) \/
     exists k : nat, first_match wd argc (ev_wd ev) k).
Proof.
  intros Hev Hname. exists (print_dir wd argc argv (ev_wd ev)).
  split.
  { unfold report_event. rewrite Hev.
    cbn -[print_name print_kinds print_dir print_object].
    rewrite Hname. reflexivity. }
  split; [apply print_dir_no_match|].
  split; [intros k; apply print_dir_first_match|].
  destruct (resolve wd argc (ev_wd ev)) as [k|] eqn:Hres.
  - right. exists k. apply resolve_Some, Hres.
  - left. apply resolve_None, Hres.
Qed.

Lemma report_event_directory_segment_witness :
  load_event (encode sample_ignored) 0 = Some (header_of sample_ignored) /\
  print_name (encode sample_ignored) 0 (header_of sample_ignored)
  = Some "y"%string /\
  no_match sample_wd 3 7 /\
  report_event sample_wd 3 sample_argv (encode sample_ignored) 0
  = Some (header_of sample_ignored, ("y [file]" ++ newline)%string).
Proof.
  assert (Hev : load_event (encode sample_ignored) 0
                = Some (header_of sample_ignored)) by (vm_compute; reflexivity).
  assert (Hname : print_name (encode sample_ignored) 0
                    (header_of sample_ignored) = Some "y"%string)
    by (vm_compute; reflexivity).
  assert (Hno : no_match sample_wd 3 7)
    by (apply resolve_None; vm_compute; reflexivity).
  split; [exact Hev|]. split; [exact Hname|]. split; [exact Hno|].
  destruct (report_event_directory_segment sample_wd 3 sample_argv _ _ _ _
              Hev Hname) as (seg & Hrep & Hnone & _).
  rewrite Hrep, (Hnone Hno). reflexivity.
Defined.

(** C3, as the claim states it, fails: two registrations can return the
    same id (the kernel answers a second registration of an already
    watched directory, reached through another path, with the id of the
    existing watch), and that id resolves to the path given first, not to
    the path given at the second registration. *)
Lemma resolve_registered_counterexample :
  ~ (forall (fd : Z) (argv : list string) (e : env) (tr : list io_event)
       (wd : list Z) (i : nat),
       register_all fd (Z.of_nat (length argv)) argv e = (tr, Some wd) ->
       (1 <= i < length argv)%nat ->
       resolve_path wd (Z.of_nat (length argv)) argv (registered_id e argv i)
       = Some (argv_at argv i)).
Proof.
  intros H.
  specialize (H 3 alias_argv alias_env _ _ 2%nat eq_refl).
  assert (Hi : (1 <= 2 < length alias_argv)%nat) by (simpl; lia).
  specialize (H Hi). vm_compute in H. discriminate H.
Qed.

(** C3, amended.  After a registration loop that did not exit, an id
    resolves to the path supplied at the first registration, in argument
    order, that returned it: the path of its own registration whenever no
    earlier registration returned the same id, so for every registration
    when the returned ids are pairwise distinct.  And an event that carries
    the id registered for B never resolves to the table entry of an A whose
    id differs. *)
Theorem resolve_registered (fd : Z) (argv : list string) (e : env)
  (tr : list io_event) (wd : list Z) :
  let argc := Z.of_nat (length argv) in
  register_all fd argc argv e = (tr, Some wd) ->
  (forall i : nat,
     (1 <= i < length argv)%nat ->
     (forall j : nat, (1 <= j < i)%nat ->
        registered_id e argv j <> registered_id e argv i) ->
     resolve wd argc (registered_id e argv i) = Some i /\
     resolve_path wd argc argv (registered_id e argv i)
     = Some (argv_at argv i)) /\
  (forall a b : nat,
     (1 <= a < length argv)%nat -> (1 <= b < length argv)%nat ->
     registered_id e argv a <> registered_id e argv b ->
     resolve wd argc (registered_id e argv b) <> Some a).
Proof.
  intros argc Hreg. unfold register_all in Hreg.
  assert (Hslot : forall j : nat, (1 <= j < length argv)%nat ->
                    wd_at wd j = registered_id e argv j).
  { intros j Hj.
    apply add_watches_table in Hreg as (_ & Hin & _);
      [|rewrite length_replicate; subst argc; lia].
    apply Hin. subst argc. lia. }
  split.
  - intros i Hi Hfirst.
    assert (Hres : resolve wd argc (registered_id e argv i) = Some i).
    { apply resolve_Some. unfold first_match.
      split; [lia|]. split; [subst argc; lia|]. split; [apply Hslot, Hi|].
      intros j Hj. rewrite Hslot by lia. apply Hfirst, Hj. }
    split; [exact Hres|]. unfold resolve_path. rewrite Hres. reflexivity.
  - intros a b Ha Hb Hne Hres.
    apply resolve_Some in Hres as (_ & _ & Hid & _).
    rewrite Hslot in Hid by exact Ha. contradiction.
Qed.

Lemma resolve_registered_witness :
  register_all 3 3 sample_argv sample_env
  = ([AddWatch 3 "/tmp/a" WATCH_MASK; AddWatch 3 "/tmp/b" WATCH_MASK],
     Some sample_wd) /\
  resolve_path sample_wd 3 sample_argv (registered_id sample_env sample_argv 2)
  = Some "/tmp/b"%string /\
  resolve sample_wd 3 (registered_id sample_env sample_argv 2) <> Some 1%nat.
Proof.
  assert (Hreg : register_all 3 (Z.of_nat (length sample_argv)) sample_argv
                   sample_env
                 = ([AddWatch 3 "/tmp/a" WATCH_MASK;
                     AddWatch 3 "/tmp/b" WATCH_MASK], Some sample_wd))
    by (vm_compute; reflexivity).
  split; [exact Hreg|].
  destruct (resolve_registered 3 sample_argv sample_env _ _ Hreg)
    as [Hown Hcross].
  split.
  - apply (Hown 2%nat); [simpl; lia|].
    intros j Hj. assert (j = 1%nat) as -> by lia. vm_compute. discriminate.
  - apply (Hcross 1%nat 2%nat); [simpl; lia|simpl; lia|].
    vm_compute. discriminate.
Defined.

(** C4.  When [poll] reports both the console and the inotify descriptor
    ready, the loop reads the console one byte at a time and leaves through
    the [break]: the iteration makes no 4096-byte read of the inotify
    descriptor, writes nothing, and its result does not depend on what the
    inotify descriptor holds.  When the console delivers a line, the bytes
    up to and including its terminator are consumed and nothing more. *)
Theorem main_loop_console_first (fd : Z) (wd : list Z) (argc : Z)
  (argv : list string) (e : env) (p : poll_result)
  (polls : list poll_result) (ino : list read_result) :
  0 < poll_num p ->
  test_mask (revents0 p) POLLIN = true ->
  test_mask (revents1 p) POLLIN = true ->
  main_loop fd wd argc argv e (p :: polls) ino
  = (Poll :: fst (drain_stdin (stdin_script e)),
     if snd (drain_stdin (stdin_script e)) then Ret tt else Halt Blocked) /\
  Forall (fun ev => ev = Read STDIN_FILENO 1)
    (fst (drain_stdin (stdin_script e))) /\
  (forall (typed : list byte) (rest : list read_result),
     x0a ∉ typed ->
     stdin_script e = keystrokes typed ++ ReadData [x0a] :: rest ->
     main_loop fd wd argc argv e (p :: polls) ino
     = (Poll :: replicate (S (length typed)) (Read STDIN_FILENO 1), Ret tt)).
Proof.
  intros Hnum Hconsole _.
  assert (Hrun : main_loop fd wd argc argv e (p :: polls) ino
                 = (Poll :: fst (drain_stdin (stdin_script e)),
                    if snd (drain_stdin (stdin_script e))
                    then Ret tt else Halt Blocked)).
  { cbn [main_loop].
    rewrite (proj2 (Z.eqb_neq (poll_num p) (-1))) by lia.
    rewrite (proj2 (Z.ltb_lt 0 (poll_num p)) Hnum), Hconsole.
    destruct (drain_stdin (stdin_script e)) as [tr finished]. reflexivity. }
  split; [exact Hrun|]. split; [apply drain_stdin_reads|].
  intros typed rest Hnot Hscript.
  rewrite Hrun, Hscript, (drain_stdin_line typed rest Hnot). reflexivity.
Qed.

Lemma main_loop_console_first_witness :
  main_loop 3 sample_wd 3 sample_argv sample_env
    [mk_poll 2 0 POLLIN POLLIN] (inotify_script sample_env)
  = ([Poll; Read STDIN_FILENO 1; Read STDIN_FILENO 1], Ret tt).
Proof.
  destruct (main_loop_console_first 3 sample_wd 3 sample_argv sample_env
              (mk_poll 2 0 POLLIN POLLIN) [] (inotify_script sample_env))
    as (_ & _ & Hline); [reflexivity|reflexivity|reflexivity|].
  apply (Hline [x71] []); [|reflexivity].
  intros Hin. apply list_elem_of_singleton in Hin. discriminate Hin.
Defined.

(** C9.  A [poll] that fails with [EINTR] is not an error: nothing is
    reported and the loop goes on to wait again, the run continuing as it
    would have from the next wait.  A [poll] that fails with anything else
    is reported with [perror] and the process exits with failure status. *)
Theorem main_loop_wait_failure (fd : Z) (wd : list Z) (argc : Z)
  (argv : list string) (e : env) (p : poll_result)
  (polls : list poll_result) (ino : list read_result) :
  poll_num p = -1 ->
  (poll_errno p = EINTR ->
   main_loop fd wd argc argv e (p :: polls) ino
   = (Poll :: fst (main_loop fd wd argc argv e polls ino),
      snd (main_loop fd wd argc argv e polls ino))) /\
  (poll_errno p <> EINTR ->
   main_loop fd wd argc argv e (p :: polls) ino
   = ([Poll; Perror "poll" (poll_errno p)], Halt (Exited EXIT_FAILURE))).
Proof.
  intros Hnum. cbn [main_loop]. rewrite Hnum. cbn [Z.eqb Pos.eqb].
  split; intros Herr.
  - rewrite Herr. cbn [Z.eqb EINTR Pos.eqb].
    destruct (main_loop fd wd argc argv e polls ino). reflexivity.
  - rewrite (proj2 (Z.eqb_neq _ _) Herr). reflexivity.
Qed.

Lemma main_loop_wait_failure_witness :
  main_loop 3 sample_wd 3 sample_argv sample_env
    [mk_poll (-1) EINTR 0 0; mk_poll 2 0 POLLIN POLLIN] []
  = ([Poll; Poll; Read STDIN_FILENO 1; Read STDIN_FILENO 1], Ret tt) /\
  main_loop 3 sample_wd 3 sample_argv sample_env
    [mk_poll (-1) 9 0 0; mk_poll 2 0 POLLIN POLLIN] []
  = ([Poll; Perror "poll" 9], Halt (Exited EXIT_FAILURE)).
Proof.
  split.
  - destruct (main_loop_wait_failure 3 sample_wd 3 sample_argv sample_env
                (mk_poll (-1) EINTR 0 0) [mk_poll 2 0 POLLIN POLLIN] [] eq_refl)
      as [Hretry _].
    rewrite (Hretry eq_refl). reflexivity.
  - destruct (main_loop_wait_failure 3 sample_wd 3 sample_argv sample_env
                (mk_poll (-1) 9 0 0) [mk_poll 2 0 POLLIN POLLIN] [] eq_refl)
      as [_ Hfatal].
    apply Hfatal. discriminate.
Defined.

(** C7.  One pass of [handle_events] over a descriptor that delivers any
    number of well-formed batches reads every one of them and writes their
    lines, and goes on reading until a read fails.  When that failure is
    [EAGAIN] (nothing available now) the pass ends normally, reporting
    nothing; any other failure is reported with [perror] and the process
    exits with failure status. *)
Theorem handle_events_drains (fd : Z) (wd : list Z) (argc : Z)
  (argv : list string) (e : env) (batches : list (list record))
  (errno : Z) (rest : list read_result) :
  Forall good_batch batches ->
  let script := deliver batches ++ ReadError errno :: rest in
  let lines := concat (batch_trace fd wd argc argv <$> batches) in
  (errno = EAGAIN ->
   handle_events fd wd argc argv e script
   = (lines ++ [Read fd BUF_SIZE], Ret rest)) /\
  (errno <> EAGAIN ->
   handle_events fd wd argc argv e script
   = (lines ++ [Read fd BUF_SIZE; Perror "read" errno],
      Halt (Exited EXIT_FAILURE))).
Proof.
  intros Hgood script lines. subst script lines. unfold handle_events.
  rewrite (handle_events_loop_batches fd wd argc argv batches _ errno rest Hgood).
  split; intros Herr.
  - rewrite Herr. reflexivity.
  - rewrite (proj2 (Z.eqb_neq _ _) Herr). reflexivity.
Qed.

Lemma sample_batches_good :
  Forall good_batch [[sample_open_moved; sample_dir_closed]; [sample_ignored]].
Proof.
  pose proof sample_records_well_formed as Hwf. unfold sample_records in Hwf.
  apply Forall_cons_1 in Hwf as [H1 Hwf].
  apply Forall_cons_1 in Hwf as [H2 Hwf].
  apply Forall_cons_1 in Hwf as [H3 _].
  apply List.Forall_cons; [|apply List.Forall_cons; [|apply List.Forall_nil]].
  - split; [discriminate|].
    split; [apply List.Forall_cons; [exact H1|apply List.Forall_cons;
              [exact H2|apply List.Forall_nil]]|].
    vm_compute. discriminate.
  - split; [discriminate|].
    split; [apply List.Forall_cons; [exact H3|apply List.Forall_nil]|].
    vm_compute. discriminate.
Qed.

Lemma handle_events_drains_witness :
  Forall good_batch [[sample_open_moved; sample_dir_closed]; [sample_ignored]] /\
  handle_events 3 sample_wd 3 sample_argv sample_env
    (inotify_script sample_env)
  = ([Read 3 BUF_SIZE;
      Stdout ("IN_OPEN: IN_MOVED_FROM: /tmp/a/x.txt [file]" ++ newline);
      Stdout ("IN_CLOSE_WRITE: /tmp/b/ [directory]" ++ newline);
      Read 3 BUF_SIZE;
      Stdout ("y [file]" ++ newline);
      Read 3 BUF_SIZE], Ret []) /\
  handle_events 3 sample_wd 3 sample_argv sample_env
    (deliver [[sample_ignored]] ++ [ReadError 9])
  = ([Read 3 BUF_SIZE; Stdout ("y [file]" ++ newline);
      Read 3 BUF_SIZE; Perror "read" 9], Halt (Exited EXIT_FAILURE)).
Proof.
  split; [exact sample_batches_good|]. split.
  - destruct (handle_events_drains 3 sample_wd 3 sample_argv sample_env _
                EAGAIN [] sample_batches_good) as [Hdone _].
    exact (Hdone eq_refl).
  - pose proof sample_batches_good as Hgood.
    apply Forall_cons_1 in Hgood as [_ Hgood].
    destruct (handle_events_drains 3 sample_wd 3 sample_argv sample_env _
                9 [] Hgood) as [_ Hfatal].
    apply Hfatal. discriminate.
Defined.

(** C6.  When the registration of [argv[k]] is the first to fail, [main]
    has made the registration calls for the paths before it, reports the
    path that failed on the error stream, and exits with failure status.
    Nothing else happened: the descriptor was never waited on or read, and
    the only text on the output stream is the start-up banner, so no event
    was reported, whatever the remaining paths are. *)
Theorem main_registration_failure (argv : list string) (e : env)
  (fd errno : Z) (k : nat) :
  init_result e = (fd, errno) ->
  fd <> -1 ->
  calloc_result e = AllocOk ->
  (1 <= k < length argv)%nat ->
  registered_id e argv k = -1 ->
  (forall j : nat, (1 <= j < k)%nat -> registered_id e argv j <> -1) ->
  main argv e
  = (Stdout ("Press ENTER key to exit." ++ newline) ::
     InotifyInit1 IN_NONBLOCK ::
     Calloc (Z.of_nat (length argv)) ::
     ((fun j => AddWatch fd (argv_at argv j) WATCH_MASK) <$> seq 1 (k - 1)) ++
     [AddWatch fd (argv_at argv k) WATCH_MASK;
      Stderr ("Cannot watch '" ++ argv_at argv k ++ "'" ++ newline);
      Perror "inotify_add_watch" (snd (add_watch_result e k (argv_at argv k)))],
     Exited EXIT_FAILURE) /\
  List.filter is_stdout (fst (main argv e))
  = [Stdout ("Press ENTER key to exit." ++ newline)] /\
  count_events is_read (fst (main argv e)) = O /\
  count_events (fun ev => match ev with Poll => true | _ => false end)
    (fst (main argv e)) = O.
Proof.
  intros Hinit Hfd Hcalloc Hk Hfail Hok.
  assert (Hmain : main argv e
    = (Stdout ("Press ENTER key to exit." ++ newline) ::
       InotifyInit1 IN_NONBLOCK ::
       Calloc (Z.of_nat (length argv)) ::
       ((fun j => AddWatch fd (argv_at argv j) WATCH_MASK) <$> seq 1 (k - 1)) ++
       [AddWatch fd (argv_at argv k) WATCH_MASK;
        Stderr ("Cannot watch '" ++ argv_at argv k ++ "'" ++ newline);
        Perror "inotify_add_watch"
          (snd (add_watch_result e k (argv_at argv k)))],
       Exited EXIT_FAILURE)).
  { unfold main.
    rewrite (proj2 (Z.ltb_ge (Z.of_nat (length argv)) 2)) by lia.
    rewrite Hinit, (proj2 (Z.eqb_neq fd (-1)) Hfd), Hcalloc.
    unfold watch_and_listen, register_all.
    rewrite (add_watches_fail fd argv e _ 1 k _) by (first [lia|assumption]).
    reflexivity. }
  split; [exact Hmain|]. rewrite Hmain. cbn [fst]. unfold count_events.
  cbn [List.filter is_stdout is_read].
  rewrite !List.filter_app, !filter_add_watch_calls by reflexivity.
  repeat split; reflexivity.
Qed.

Lemma main_registration_failure_witness :
  main missing_argv missing_env
  = ([Stdout ("Press ENTER key to exit." ++ newline);
      InotifyInit1 IN_NONBLOCK; Calloc 4;
      AddWatch 3 "/tmp/a" WATCH_MASK;
      AddWatch 3 "/tmp/missing" WATCH_MASK;
      Stderr ("Cannot watch '/tmp/missing'" ++ newline);
      Perror "inotify_add_watch" 2], Exited EXIT_FAILURE).
Proof.
  assert (Hfd : 3 <> -1) by discriminate.
  assert (Hk : (1 <= 2 < length missing_argv)%nat) by (simpl; lia).
  assert (Hok : forall j : nat, (1 <= j < 2)%nat ->
                  registered_id missing_env missing_argv j <> -1).
  { intros j Hj. assert (j = 1%nat) as -> by lia. vm_compute. discriminate. }
  exact (proj1 (main_registration_failure missing_argv missing_env 3 0 2
                  eq_refl Hfd eq_refl Hk eq_refl Hok)).
Defined.

(** C5, as the claim states it, fails: a run whose second registration
    fails exits with failure status without having closed the descriptor
    or freed the table. *)
Lemma cleanup_on_every_exit_counterexample :
  ~ (forall (argv : list string) (e : env) (tr : list io_event) (status : Z),
       main argv e = (tr, Exited status) ->
       count_events is_close tr = 1%nat /\ count_events is_free tr = 1%nat).
Proof.
  intros H.
  destruct (H missing_argv missing_env _ _ eq_refl) as [Hclose _].
  vm_compute in Hclose. discriminate Hclose.
Qed.

(** C5, amended.  On the clean shutdown route (exit with success status)
    the descriptor that [inotify_init1] returned is closed and the table
    freed, exactly once each and as the last two actions of the run; no
    other descriptor is closed.  On every other route, the fatal-error
    exits included, the process stops without closing or freeing anything
    itself. *)
Theorem main_cleanup (argv : list string) (e : env) :
  (snd (main argv e) = Exited EXIT_SUCCESS ->
   count_events is_close (fst (main argv e)) = 1%nat /\
   count_events is_free (fst (main argv e)) = 1%nat /\
   exists tr0 : list io_event,
     fst (main argv e) = tr0 ++ [Close (fst (init_result e)); Free] /\
     Forall not_cleanup tr0) /\
  (snd (main argv e) <> Exited EXIT_SUCCESS ->
   count_events is_close (fst (main argv e)) = O /\
   count_events is_free (fst (main argv e)) = O).
Proof.
  destruct (main_routes argv e) as [(Hh & tr0 & Htr & Hq)|(Hh & Hq)].
  - split; [|intros Hne; contradiction].
    intros _. pose proof (not_cleanup_count _ Hq) as [Hc Hf].
    rewrite Htr, !count_events_app, Hc, Hf.
    split; [reflexivity|]. split; [reflexivity|].
    exists tr0. split; [reflexivity|exact Hq].
  - split; [intros Heq; contradiction|].
    intros _. apply not_cleanup_count, Hq.
Qed.

Lemma main_cleanup_witness :
  snd (main sample_argv sample_env) = Exited EXIT_SUCCESS /\
  count_events is_close (fst (main sample_argv sample_env)) = 1%nat /\
  count_events is_free (fst (main sample_argv sample_env)) = 1%nat /\
  (exists tr0 : list io_event,
     fst (main sample_argv sample_env) = tr0 ++ [Close 3; Free] /\
     Forall not_cleanup tr0) /\
  snd (main missing_argv missing_env) <> Exited EXIT_SUCCESS /\
  count_events is_close (fst (main missing_argv missing_env)) = O /\
  count_events is_free (fst (main missing_argv missing_env)) = O.
Proof.
  assert (Hclean : snd (main sample_argv sample_env) = Exited EXIT_SUCCESS)
    by (vm_compute; reflexivity).
  assert (Hfatal : snd (main missing_argv missing_env) <> Exited EXIT_SUCCESS)
    by (vm_compute; discriminate).
  destruct (main_cleanup sample_argv sample_env) as [Hone _].
  destruct (main_cleanup missing_argv missing_env) as [_ Hnone].
  destruct (Hone Hclean) as (Hc & Hf & Hlast).
  destruct (Hnone Hfatal) as [Hc' Hf'].
  repeat split; assumption.
Defined.

(** * Further properties of the code *)

(** ** The decoding loop on arbitrary bytes *)

Lemma report_event_len_range (wd : list Z) (argc : Z) (argv : list string)
  (buf : list byte) (off : Z) (ev : inotify_event) (text : string) :
  report_event wd argc argv buf off = Some (ev, text) ->
  0 <= ev_len ev < 2 ^ 32.
Proof.
  intros H. eapply load_event_len_range, report_event_load, H.
Qed.

Lemma events_loop_chain (wd : list Z) (argc : Z) (argv : list string)
  (buf : list byte) (len : Z) (fuel : nat) :
  forall (off : Z) (steps : list step) (e : loop_end),
    events_loop fuel wd argc argv buf len off = (steps, e) ->
    chained off steps /\
    Forall (fun s => st_off s < len /\ EVENT_SIZE <= advance s) steps /\
    (0 <= off -> Forall (fun s => 0 <= st_off s) steps) /\
    16 * Z.of_nat (length steps) <= Z.max 0 (len - off + 15) /\
    (forall c : Z, e = LoopDone c -> len <= c /\ off <= c) /\
    (forall c : Z, e = LoopFault c -> off <= c < len).
Proof.
  assert (Hbase : forall (off : Z) (e : loop_end),
            (forall c : Z, e = LoopDone c -> c = off /\ len <= off) ->
            (forall c : Z, e = LoopFault c -> c = off /\ off < len) ->
            chained off [] /\
            Forall (fun s => st_off s < len /\ EVENT_SIZE <= advance s) [] /\
            (0 <= off -> Forall (fun s => 0 <= st_off s) []) /\
            16 * Z.of_nat (length (@nil step)) <= Z.max 0 (len - off + 15) /\
            (forall c : Z, e = LoopDone c -> len <= c /\ off <= c) /\
            (forall c : Z, e = LoopFault c -> off <= c < len)).
  { intros off e Hdone Hfault.
    split; [exact I|]. split; [constructor|].
    split; [intros _; constructor|]. split; [cbn [length]; lia|].
    split; intros c Hc.
    - destruct (Hdone c Hc). lia.
    - destruct (Hfault c Hc). lia. }
  induction fuel as [|fuel IH]; intros off steps e; cbn [events_loop];
    destruct (Z.ltb_spec off len) as [Hlt|Hge].
  - intros [= <- <-]. apply Hbase; intros c [=].
  - intros [= <- <-]. apply Hbase; intros c [= <-]. split; [reflexivity|lia].
  - destruct (report_event wd argc argv buf off) as [[ev text]|] eqn:Hrep.
    + pose proof (report_event_len_range _ _ _ _ _ _ _ Hrep) as Hlen.
      destruct (events_loop fuel wd argc argv buf len _) as [rest e'] eqn:Hrec.
      intros [= <- <-].
      destruct (IH _ _ _ Hrec) as (Hch & Hall & Hpos & Hcount & Hdone & Hfault).
      unfold EVENT_SIZE in *.
      split; [cbn [chained st_off st_next st_event]; auto|].
      split; [constructor; [unfold advance; cbn [st_off st_next]; lia|exact Hall]|].
      split; [intros Hoff; constructor; [cbn [st_off]; lia|apply Hpos; lia]|].
      split; [cbn [length]; lia|].
      split; [intros c Hc; specialize (Hdone c Hc); lia|].
      intros c Hc. specialize (Hfault c Hc). lia.
    + intros [= <- <-]. apply Hbase; intros c [= <-]. split; [reflexivity|lia].
  - intros [= <- <-]. apply Hbase; intros c [= <-]. split; [reflexivity|lia].
Qed.

(** X1.  Whatever bytes the array holds and whatever the valid length is,
    the decoding loop makes progress: its first iteration starts at
    offset 0, every iteration starts inside the valid length where the
    previous one ended and moves the cursor by at least one header, so
    there are at most [(len + 15) / 16] iterations; and when the loop is
    left through its condition the cursor is at or beyond the valid
    length. *)
Theorem decode_events_progress (wd : list Z) (argc : Z) (argv : list string)
  (buf : list byte) (len : Z) :
  let steps := fst (decode_events wd argc argv buf len) in
  chained 0 steps /\
  Forall (fun s => 0 <= st_off s < len /\ EVENT_SIZE <= advance s) steps /\
  16 * Z.of_nat (length steps) <= Z.max 0 (len + 15) /\
  (forall c : Z,
     snd (decode_events wd argc argv buf len) = LoopDone c -> len <= c) /\
  snd (decode_events wd argc argv buf len) <> LoopFuel.
Proof.
  intros steps. subst steps.
  pose proof (decode_events_fuel wd argc argv buf len) as Hfuel.
  unfold decode_events in *.
  destruct (events_loop (Z.to_nat len) wd argc argv buf len 0)
    as [steps e] eqn:Hloop.
  apply events_loop_chain in Hloop
    as (Hch & Hall & Hpos & Hcount & Hdone & _).
  cbn [fst snd] in *.
  split; [exact Hch|]. split.
  { specialize (Hpos ltac:(lia)).
    rewrite Forall_forall in Hall, Hpos |- *.
    intros s Hs. specialize (Hall s Hs). specialize (Hpos s Hs). lia. }
  split; [replace (len + 15) with (len - 0 + 15) by lia; exact Hcount|].
  split; [intros c Hc; apply Hdone, Hc|exact Hfuel].
Qed.

(** X2.  The loop never checks that a record fits in what was read: when
    the header found at offset 0 announces a record that reaches up to or
    past the valid length, however short the read was, that record is
    still reported whole, from bytes of the array beyond the valid length
    where need be, and the cursor ends at the record's end. *)
Theorem decode_events_short_read (wd : list Z) (argc : Z) (argv : list string)
  (buf : list byte) (len : Z) (ev : inotify_event) (text : string) :
  report_event wd argc argv buf 0 = Some (ev, text) ->
  0 < len <= EVENT_SIZE + ev_len ev ->
  decode_events wd argc argv buf len
  = ([mk_step 0 (EVENT_SIZE + ev_len ev) ev text],
     LoopDone (EVENT_SIZE + ev_len ev)).
Proof.
  intros Hrep Hlen. unfold decode_events.
  destruct (Z.to_nat len) as [|fuel] eqn:Hfuel; [lia|].
  cbn [events_loop].
  rewrite (proj2 (Z.ltb_lt 0 len)) by lia.
  rewrite Hrep.
  change (0 + (EVENT_SIZE + ev_len ev)) with (EVENT_SIZE + ev_len ev).
  assert (Hstop : events_loop fuel wd argc argv buf len
                    (EVENT_SIZE + ev_len ev)
                  = ([], LoopDone (EVENT_SIZE + ev_len ev))).
  { destruct fuel; cbn [events_loop];
      rewrite (proj2 (Z.ltb_ge _ _)) by lia; reflexivity. }
  rewrite Hstop. reflexivity.
Qed.

Lemma decode_events_short_read_witness :
  decode_events sample_wd 3 sample_argv (encode sample_open_moved) 5
  = ([mk_step 0 32 (header_of sample_open_moved)
        ("IN_OPEN: IN_MOVED_FROM: /tmp/a/x.txt [file]" ++ newline)%string],
     LoopDone 32).
Proof.
  apply (decode_events_short_read sample_wd 3 sample_argv
           (encode sample_open_moved) 5 (header_of sample_open_moved)).
  - vm_compute. reflexivity.
  - vm_compute. split; [reflexivity|discriminate].
Defined.

(** ** Registration and lookup together *)

Lemma add_watches_success (fd : Z) (argv : list string) (e : env) (n : nat) :
  forall (i : nat) (pre : list Z),
    length pre = i ->
    (forall j : nat, (i <= j < i + n)%nat -> registered_id e argv j <> -1) ->
    add_watches n i fd argv e (pre ++ replicate n 0)
    = (add_watch_calls fd argv i n, Some (pre ++ registered_ids e argv i n)).
Proof.
  induction n as [|n IH]; intros i pre Hpre Hok; [reflexivity|].
  cbn [add_watches].
  pose proof (Hok i ltac:(lia)) as Hi. unfold registered_id in Hi.
  destruct (add_watch_result e i (argv_at argv i)) as [r errno] eqn:Hr.
  cbn [fst] in Hi. rewrite (proj2 (Z.eqb_neq r (-1)) Hi).
  replace (<[i:=r]> (pre ++ replicate (S n) 0))
    with ((pre ++ [r]) ++ replicate n 0).
  2:{ rewrite <- Hpre, <- (Nat.add_0_r (length pre)), insert_app_r.
      rewrite <- app_assoc. reflexivity. }
  rewrite (IH (S i) (pre ++ [r])).
  - unfold add_watch_calls, registered_ids. cbn [seq fmap list_fmap].
    unfold registered_id at 2. rewrite Hr. cbn [fst].
    rewrite <- app_assoc. reflexivity.
  - rewrite length_app. simpl. lia.
  - intros j Hj. apply Hok. lia.
Qed.

(** X3.  When every registration succeeds, the registration loop calls
    [inotify_add_watch] once for each supplied path, in argument order and
    with the mask of line 114, and leaves a table with one slot per
    argument: slot 0 keeps the zero [calloc] put there, slot [i] holds the
    id returned for [argv[i]]. *)
Theorem register_all_success (fd : Z) (argv : list string) (e : env) :
  (1 <= length argv)%nat ->
  (forall j : nat, (1 <= j < length argv)%nat ->
     registered_id e argv j <> -1) ->
  register_all fd (Z.of_nat (length argv)) argv e
  = (add_watch_calls fd argv 1 (length argv - 1),
     Some (0 :: registered_ids e argv 1 (length argv - 1))).
Proof.
  intros Hlen Hok. unfold register_all.
  replace (Z.to_nat (Z.of_nat (length argv) - 1)) with (length argv - 1)%nat
    by lia.
  replace (Z.to_nat (Z.of_nat (length argv))) with (S (length argv - 1))
    by lia.
  change (replicate (S (length argv - 1)) 0)
    with ([0] ++ replicate (length argv - 1) 0).
  rewrite (add_watches_success fd argv e (length argv - 1) 1 [0]);
    [reflexivity|reflexivity|].
  intros j Hj. apply Hok. lia.
Qed.

Lemma register_all_success_witness :
  register_all 3 3 sample_argv sample_env
  = ([AddWatch 3 "/tmp/a" WATCH_MASK; AddWatch 3 "/tmp/b" WATCH_MASK],
     Some [0; 1; 2]).
Proof.
  apply (register_all_success 3 sample_argv sample_env).
  - simpl. lia.
  - intros j Hj. simpl in Hj.
    assert (j = 1%nat \/ j = 2%nat) as [-> | ->] by lia;
      vm_compute; discriminate.
Defined.

(** X4.  The lookup only ever answers with one of the supplied paths: a
    resolved path is [argv[k]] for a slot [k] between 1 and [argc - 1]
    that holds the id.  Slot 0 is never consulted, so the program name is
    never printed as a directory, not even for an id equal to what slot 0
    holds; and with no supplied path nothing resolves. *)
Theorem resolve_path_supplied (wd : list Z) (argc : Z) (argv : list string)
  (id : Z) :
  (forall path : string,
     resolve_path wd argc argv id = Some path ->
     exists k : nat,
       (1 <= k)%nat /\ Z.of_nat k < argc /\ wd_at wd k = id /\
       path = argv_at argv k) /\
  resolve wd argc id <> Some O /\
  (argc <= 1 -> resolve_path wd argc argv id = None).
Proof.
  split; [|split].
  - intros path. unfold resolve_path.
    destruct (resolve wd argc id) as [k|] eqn:Hres; [|discriminate].
    cbn. intros [= <-].
    apply resolve_Some in Hres as (Hk & Hlt & Hid & _).
    exists k. repeat split; assumption.
  - intros Hres. apply resolve_Some in Hres as (Hk & _). lia.
  - intros Hargc. unfold resolve_path.
    destruct (resolve wd argc id) as [k|] eqn:Hres; [|reflexivity].
    apply resolve_Some in Hres as (Hk & Hlt & _). lia.
Qed.

Lemma registered_slots (fd : Z) (argv : list string) (e : env)
  (tr : list io_event) (wd : list Z) :
  register_all fd (Z.of_nat (length argv)) argv e = (tr, Some wd) ->
  forall j : nat, (1 <= j < length argv)%nat ->
    wd_at wd j = registered_id e argv j /\ registered_id e argv j <> -1.
Proof.
  intros Hreg j Hj. unfold register_all in Hreg.
  apply add_watches_table in Hreg as (_ & Hin & _);
    [|rewrite length_replicate; lia].
  apply Hin. lia.
Qed.

(** X5.  After a registration loop that did not exit, no slot from index 1
    holds -1, so a record whose watch id is -1 (the id the kernel gives a
    queue-overflow record) resolves to no directory and its line carries
    no directory segment. *)
Theorem overflow_id_unresolved (fd : Z) (argv : list string) (e : env)
  (tr : list io_event) (wd : list Z) :
  let argc := Z.of_nat (length argv) in
  register_all fd argc argv e = (tr, Some wd) ->
  resolve wd argc (-1) = None /\
  print_dir wd argc argv (-1) = EmptyString.
Proof.
  intros argc Hreg.
  assert (Hno : no_match wd argc (-1)).
  { intros j Hj Hlt Hid. subst argc.
    destruct (registered_slots fd argv e tr wd Hreg j ltac:(lia))
      as [Hslot Hok].
    congruence. }
  split; [apply resolve_None, Hno|apply print_dir_no_match, Hno].
Qed.

Lemma overflow_id_unresolved_witness :
  resolve sample_wd 3 (-1) = None /\
  print_dir sample_wd 3 sample_argv (-1) = EmptyString.
Proof.
  apply (overflow_id_unresolved 3 sample_argv sample_env
           [AddWatch 3 "/tmp/a" WATCH_MASK; AddWatch 3 "/tmp/b" WATCH_MASK]
           sample_wd).
  vm_compute. reflexivity.
Defined.

(** X6.  Registration and reporting fit together: when the registration
    loop did not exit and no earlier registration returned the id that
    the registration of [argv[i]] returned, the line written for a
    well-formed record carrying that id is its kind tags, then exactly
    [argv[i]] and the path separator, then the record's name up to its
    first NUL, then the object annotation. *)
Theorem registered_record_line (fd : Z) (argv : list string) (e : env)
  (tr : list io_event) (wd : list Z) (i : nat) (r : record)
  (pre post : list byte) :
  let argc := Z.of_nat (length argv) in
  register_all fd argc argv e = (tr, Some wd) ->
  (1 <= i < length argv)%nat ->
  (forall j : nat, (1 <= j < i)%nat ->
     registered_id e argv j <> registered_id e argv i) ->
  well_formed r ->
  r_wd r = registered_id e argv i ->
  report_event wd argc argv (pre ++ encode r ++ post) (Z.of_nat (length pre))
  = Some (header_of r,
          (print_kinds (r_mask r) ++ (argv_at argv i ++ "/") ++
           record_name r ++ print_object (r_mask r))%string).
Proof.
  intros argc Hreg Hi Hfirst Hwf Hwd.
  rewrite (report_event_encode wd argc argv pre post r _ Hwf eq_refl).
  unfold record_text.
  rewrite (print_dir_first_match wd argc argv (r_wd r) i); [reflexivity|].
  unfold first_match. split; [lia|]. split; [subst argc; lia|].
  split.
  - rewrite Hwd. apply (registered_slots fd argv e tr wd Hreg i Hi).
  - intros j Hj. rewrite Hwd.
    destruct (registered_slots fd argv e tr wd Hreg j ltac:(lia)) as [-> _].
    apply Hfirst, Hj.
Qed.

Lemma registered_record_line_witness :
  report_event sample_wd 3 sample_argv
    (encode sample_dir_closed ++ encode sample_open_moved) 16
  = Some (header_of sample_open_moved,
          ("IN_OPEN: IN_MOVED_FROM: /tmp/a/x.txt [file]" ++ newline)%string).
Proof.
  pose proof (registered_record_line 3 sample_argv sample_env
                [AddWatch 3 "/tmp/a" WATCH_MASK; AddWatch 3 "/tmp/b" WATCH_MASK]
                sample_wd 1 sample_open_moved (encode sample_dir_closed) [])
    as H.
  cbv zeta in H. rewrite app_nil_r in H.
  apply H.
  - vm_compute. reflexivity.
  - simpl. lia.
  - intros j Hj. lia.
  - pose proof sample_records_well_formed as Hwf.
    apply Forall_cons_1 in Hwf as [Hr _]. exact Hr.
  - reflexivity.
Defined.

(** ** The registered mask and the reported kinds *)

Lemma test_mask_false (m bit : Z) :
  test_mask m bit = false <-> Z.land m bit = 0.
Proof.
  unfold test_mask. rewrite negb_false_iff. apply Z.eqb_eq.
Qed.

Lemma untracked_bits (m : Z) :
  untracked m <->
  Z.land m IN_OPEN = 0 /\ Z.land m IN_CLOSE_NOWRITE = 0 /\
  Z.land m IN_CLOSE_WRITE = 0 /\ Z.land m IN_MOVED_FROM = 0 /\
  Z.land m IN_MOVED_TO = 0.
Proof.
  unfold untracked, tracked_kinds. rewrite !Forall_cons, Forall_nil.
  cbn [fst]. rewrite !test_mask_false. tauto.
Qed.

(** X7.  The mask the watches are registered with is exactly the union of
    the five bits the report tests: a record's mask shares a bit with the
    registered mask if and only if its line gets at least one kind tag.
    So every kind that was asked for is reported, and a record with an
    empty kind prefix carries none of the kinds that were asked for. *)
Theorem watch_mask_reported (m : Z) :
  (Z.land m WATCH_MASK = 0 <-> untracked m) /\
  (untracked m <-> print_kinds m = EmptyString).
Proof.
  split.
  - rewrite untracked_bits.
    change WATCH_MASK
      with (Z.lor (Z.lor IN_OPEN (Z.lor IN_CLOSE_WRITE IN_CLOSE_NOWRITE))
              (Z.lor IN_MOVED_FROM IN_MOVED_TO)).
    rewrite !Z.land_lor_distr_r, !Z.lor_eq_0_iff. tauto.
  - split; [apply print_kinds_untracked|].
    intros Hnone. apply Forall_forall. intros [bit tag] Hin. cbn [fst].
    revert Hnone. unfold print_kinds.
    unfold tracked_kinds in Hin.
    repeat (apply elem_of_cons in Hin as [[= -> ->]|Hin]);
      [..|inversion Hin];
      destruct (test_mask m IN_OPEN), (test_mask m IN_CLOSE_NOWRITE),
        (test_mask m IN_CLOSE_WRITE), (test_mask m IN_MOVED_FROM),
        (test_mask m IN_MOVED_TO); cbn; congruence.
Qed.

(** ** Names *)

Lemma c_string_text (s : string) (pad : nat) (post : list byte) :
  no_nul s ->
  c_string (name_field s pad ++ post) = Some s.
Proof.
  unfold no_nul, name_field, bytes_of.
  induction s as [|c s IH]; intros Hs; [reflexivity|].
  cbn [list_ascii_of_string] in Hs. apply Forall_cons_1 in Hs as [Hc Hs].
  cbn [list_ascii_of_string fmap list_fmap app c_string].
  destruct (Byte.eqb (byte_of_ascii c) x00) eqn:Hb.
  - exfalso. apply Hc. apply Byte.byte_dec_bl in Hb.
    rewrite <- (ascii_of_byte_of_ascii c), Hb. reflexivity.
  - change (list_fmap ascii byte byte_of_ascii (list_ascii_of_string s))
      with (byte_of_ascii <$> list_ascii_of_string s).
    rewrite (IH Hs). cbn. rewrite ascii_of_byte_of_ascii. reflexivity.
Qed.

(** X8.  A name travels unchanged: for a record whose name field is a text
    without NUL characters followed by its terminator and any amount of
    NUL padding, the line shows exactly that text between the directory
    segment and the annotation; the padding, and whatever follows the
    record in the array, never shows. *)
Theorem report_event_name_round_trip (wd : list Z) (argc : Z)
  (argv : list string) (r : record) (s : string) (pad : nat)
  (pre post : list byte) :
  well_formed r ->
  r_name r = name_field s pad ->
  no_nul s ->
  report_event wd argc argv (pre ++ encode r ++ post) (Z.of_nat (length pre))
  = Some (header_of r,
          (print_kinds (r_mask r) ++ print_dir wd argc argv (r_wd r) ++
           s ++ print_object (r_mask r))%string).
Proof.
  intros Hwf Hname Hs.
  rewrite (report_event_encode wd argc argv pre post r _ Hwf eq_refl).
  unfold record_text, record_name.
  rewrite Hname, <- (app_nil_r (name_field s pad)), (c_string_text s pad [] Hs).
  reflexivity.
Qed.

Lemma report_event_name_round_trip_witness :
  report_event sample_wd 3 sample_argv (encode sample_open_moved) 0
  = Some (header_of sample_open_moved,
          ("IN_OPEN: IN_MOVED_FROM: /tmp/a/x.txt [file]" ++ newline)%string).
Proof.
  pose proof (report_event_name_round_trip sample_wd 3 sample_argv
                sample_open_moved "x.txt" 10 [] []) as H.
  rewrite app_nil_r in H. apply H.
  - pose proof sample_records_well_formed as Hwf.
    apply Forall_cons_1 in Hwf as [Hr _]. exact Hr.
  - reflexivity.
  - repeat constructor; discriminate.
Defined.

(** ** The console at shutdown *)

Lemma drain_stdin_stops (typed : list byte) (final : read_result)
  (rest : list read_result) :
  x0a ∉ typed ->
  final = ReadData [] \/ final = ReadData [x0a] \/
    (exists errno : Z, final = ReadError errno) ->
  drain_stdin (keystrokes typed ++ final :: rest)
  = (replicate (S (length typed)) (Read STDIN_FILENO 1), true).
Proof.
  intros Hnot Hfinal.
  induction typed as [|b typed IH].
  - destruct Hfinal as [->|[->|[errno ->]]]; reflexivity.
  - apply not_elem_of_cons in Hnot as [Hb Hnot].
    change (keystrokes (b :: typed) ++ final :: rest)
      with (ReadData [b] :: keystrokes typed ++ final :: rest).
    cbn [drain_stdin]. rewrite (IH Hnot).
    assert (Hread : sys_read 1 [x00] (ReadData [b]) = (1, 0, [b]))
      by reflexivity.
    rewrite Hread.
    assert (Hcmp : (default 0 (load_u8 [b] 0) =? 10) = false).
    { apply Z.eqb_neq. intros H. apply Hb. symmetry.
      apply byte_to_Z_newline. exact H. }
    rewrite Hcmp. reflexivity.
Qed.

(** X9.  Shutdown does not need a line: once [poll] reports the console
    ready, the loop of line 157 also stops at the first console read that
    returns end of input or fails.  Nothing is reported in either case (no
    [perror]), no further byte is read, and the main loop is left through
    the [break] exactly as after a line terminator. *)
Theorem main_loop_console_end_of_input (fd : Z) (wd : list Z) (argc : Z)
  (argv : list string) (e : env) (p : poll_result)
  (polls : list poll_result) (ino : list read_result)
  (typed : list byte) (final : read_result) (rest : list read_result) :
  console_ready p ->
  x0a ∉ typed ->
  final = ReadData [] \/ (exists errno : Z, final = ReadError errno) ->
  stdin_script e = keystrokes typed ++ final :: rest ->
  main_loop fd wd argc argv e (p :: polls) ino
  = (Poll :: replicate (S (length typed)) (Read STDIN_FILENO 1), Ret tt).
Proof.
  intros [Hnum Hconsole] Hnot Hfinal Hscript.
  cbn [main_loop].
  rewrite (proj2 (Z.eqb_neq (poll_num p) (-1))) by lia.
  rewrite (proj2 (Z.ltb_lt 0 (poll_num p)) Hnum), Hconsole, Hscript.
  rewrite (drain_stdin_stops typed final rest Hnot) by tauto.
  reflexivity.
Qed.

Lemma main_loop_console_end_of_input_witness :
  main_loop 3 sample_wd 3 sample_argv
    (mk_env (3, 0) AllocOk (fun i _ => (Z.of_nat i, 0)) [] []
       (keystrokes [x71] ++ [ReadError 5]) [])
    [mk_poll 1 0 POLLIN 0] []
  = ([Poll; Read STDIN_FILENO 1; Read STDIN_FILENO 1], Ret tt).
Proof.
  apply (main_loop_console_end_of_input 3 sample_wd 3 sample_argv _
           (mk_poll 1 0 POLLIN 0) [] [] [x71] (ReadError 5) []).
  - split; reflexivity.
  - intros Hin. apply list_elem_of_singleton in Hin. discriminate Hin.
  - right. exists 5. reflexivity.
  - reflexivity.
Defined.

(** ** Wake-ups *)

Section Wakeups.
Variables (fd : Z) (wd : list Z) (argc : Z) (argv : list string).

Lemma handle_events_loop_empty_read (batches : list (list record)) :
  forall (buf : list byte) (rest : list read_result),
    Forall good_batch batches ->
    handle_events_loop fd wd argc argv buf
      (deliver batches ++ ReadData [] :: rest)
    = (concat (batch_trace fd wd argc argv <$> batches) ++ [Read fd BUF_SIZE],
       Ret rest).
Proof.
  induction batches as [|rs batches IH]; intros buf rest Hgood;
    [reflexivity|].
  apply Forall_cons_1 in Hgood as [Hrs Hgood].
  change (deliver (rs :: batches) ++ ReadData [] :: rest)
    with (ReadData (encode_all rs) :: deliver batches ++ ReadData [] :: rest).
  rewrite (handle_events_loop_batch fd wd argc argv buf rs _ Hrs),
    (IH _ rest Hgood).
  change (concat (batch_trace fd wd argc argv <$> rs :: batches))
    with (batch_trace fd wd argc argv rs ++
          concat (batch_trace fd wd argc argv <$> batches)).
  cbn [fst snd]. rewrite <- app_assoc. reflexivity.
Qed.

(** X10.  A read of the inotify descriptor that returns 0 ends the pass
    just as [EAGAIN] does: after any number of well-formed batches, whose
    lines are all written, [handle_events] returns normally, reports
    nothing, and leaves the following answers of the descriptor unread. *)
Theorem handle_events_empty_read (e : env) (batches : list (list record))
  (rest : list read_result) :
  Forall good_batch batches ->
  handle_events fd wd argc argv e (deliver batches ++ ReadData [] :: rest)
  = (concat (batch_trace fd wd argc argv <$> batches) ++ [Read fd BUF_SIZE],
     Ret rest).
Proof.
  intros Hgood. unfold handle_events.
  apply handle_events_loop_empty_read, Hgood.
Qed.

Lemma main_loop_inotify_step (e : env) (p : poll_result)
  (polls : list poll_result) (w : list (list record))
  (rest : list read_result) :
  inotify_ready p ->
  Forall good_batch w ->
  main_loop fd wd argc argv e (p :: polls) (wakeup_script w ++ rest)
  = (wakeup_trace fd wd argc argv w ++
       fst (main_loop fd wd argc argv e polls rest),
     snd (main_loop fd wd argc argv e polls rest)).
Proof.
  intros (Hnum & Hconsole & Hino) Hgood.
  cbn [main_loop].
  rewrite (proj2 (Z.eqb_neq (poll_num p) (-1))) by lia.
  rewrite (proj2 (Z.ltb_lt 0 (poll_num p)) Hnum), Hconsole, Hino.
  unfold handle_events, wakeup_script. rewrite <- app_assoc. cbn [app].
  rewrite (handle_events_loop_batches fd wd argc argv w _ EAGAIN rest Hgood).
  cbn [Z.eqb EAGAIN Pos.eqb].
  destruct (main_loop fd wd argc argv e polls rest) as [tr o].
  unfold wakeup_trace. cbn [fst snd app]. reflexivity.
Qed.

(** X11.  One wake-up of the main loop: when [poll] reports the inotify
    descriptor ready and the console not, everything the descriptor holds
    is read and reported before the next wait, and the run then continues
    with the next answer of [poll] and the answers of the descriptor that
    follow the [EAGAIN]. *)
Theorem main_loop_wakeup (e : env) (p : poll_result)
  (polls : list poll_result) (w : list (list record))
  (rest : list read_result) :
  inotify_ready p ->
  Forall good_batch w ->
  main_loop fd wd argc argv e (p :: polls) (wakeup_script w ++ rest)
  = (wakeup_trace fd wd argc argv w ++
       fst (main_loop fd wd argc argv e polls rest),
     snd (main_loop fd wd argc argv e polls rest)).
Proof. apply main_loop_inotify_step. Qed.

(** X12.  An answer of [poll] other than failure that reports no
    descriptor, or reports neither descriptor readable (flags other than
    [POLLIN] are not looked at), changes nothing: nothing is read or
    written and the loop waits again. *)
Theorem main_loop_idle (e : env) (p : poll_result)
  (polls : list poll_result) (ino : list read_result) :
  idle p ->
  main_loop fd wd argc argv e (p :: polls) ino
  = (Poll :: fst (main_loop fd wd argc argv e polls ino),
     snd (main_loop fd wd argc argv e polls ino)).
Proof.
  intros [Hok Hidle]. cbn [main_loop].
  rewrite (proj2 (Z.eqb_neq (poll_num p) (-1)) Hok).
  destruct (main_loop fd wd argc argv e polls ino) as [tr o].
  destruct (Z.ltb_spec 0 (poll_num p)) as [Hpos|Hneg]; [|reflexivity].
  destruct Hidle as [Hle|[-> ->]]; [lia|reflexivity].
Qed.
End Wakeups.

Lemma handle_events_empty_read_witness :
  handle_events 3 sample_wd 3 sample_argv sample_env
    (deliver [[sample_ignored]] ++ [ReadData []; ReadError 9])
  = ([Read 3 BUF_SIZE; Stdout ("y [file]" ++ newline); Read 3 BUF_SIZE],
     Ret [ReadError 9]).
Proof.
  apply (handle_events_empty_read 3 sample_wd 3 sample_argv sample_env
           [[sample_ignored]] [ReadError 9]).
  pose proof sample_batches_good as Hgood.
  apply Forall_cons_1 in Hgood as [_ Hgood]. exact Hgood.
Defined.

Lemma main_loop_wakeup_witness :
  main_loop 3 sample_wd 3 sample_argv sample_env [mk_poll 1 0 0 POLLIN]
    (wakeup_script [[sample_ignored]] ++ [])
  = ([Poll; Read 3 BUF_SIZE; Stdout ("y [file]" ++ newline);
      Read 3 BUF_SIZE; Poll], Halt Blocked).
Proof.
  apply (main_loop_wakeup 3 sample_wd 3 sample_argv sample_env
           (mk_poll 1 0 0 POLLIN) [] [[sample_ignored]] []).
  - repeat split.
  - pose proof sample_batches_good as Hgood.
    apply Forall_cons_1 in Hgood as [_ Hgood]. exact Hgood.
Defined.

Lemma main_loop_idle_witness :
  main_loop 3 sample_wd 3 sample_argv sample_env
    [mk_poll 1 0 0 16; mk_poll 0 0 0 0] (inotify_script sample_env)
  = ([Poll; Poll; Poll], Halt Blocked).
Proof.
  rewrite (main_loop_idle 3 sample_wd 3 sample_argv sample_env
             (mk_poll 1 0 0 16));
    [|split; [discriminate|right; split; reflexivity]].
  rewrite (main_loop_idle 3 sample_wd 3 sample_argv sample_env
             (mk_poll 0 0 0 0));
    [|split; [discriminate|left; cbn; lia]].
  reflexivity.
Defined.

(** ** A whole session *)

Lemma main_loop_session (fd : Z) (wd : list Z) (argc : Z)
  (argv : list string) (e : env) (p_last : poll_result)
  (more_polls : list poll_result) (rest : list read_result)
  (typed : list byte) (more_keys : list read_result) :
  console_ready p_last ->
  x0a ∉ typed ->
  stdin_script e = keystrokes typed ++ ReadData [x0a] :: more_keys ->
  forall (ps : list poll_result) (ws : list (list (list record))),
    Forall2 (fun p w => inotify_ready p /\ Forall good_batch w) ps ws ->
    main_loop fd wd argc argv e (ps ++ p_last :: more_polls)
      (concat (wakeup_script <$> ws) ++ rest)
    = (concat (wakeup_trace fd wd argc argv <$> ws) ++
       Poll :: replicate (S (length typed)) (Read STDIN_FILENO 1),
       Ret tt).
Proof.
  intros [Hnum Hconsole] Hnot Hscript ps ws Hall.
  induction Hall as [|p w ps ws [Hp Hw] _ IH].
  - cbn [app fmap list_fmap concat main_loop].
    rewrite (proj2 (Z.eqb_neq (poll_num p_last) (-1))) by lia.
    rewrite (proj2 (Z.ltb_lt 0 (poll_num p_last)) Hnum), Hconsole, Hscript.
    rewrite (drain_stdin_line typed more_keys Hnot). reflexivity.
  - change ((p :: ps) ++ p_last :: more_polls)
      with (p :: ps ++ p_last :: more_polls).
    change (concat (wakeup_script <$> w :: ws) ++ rest)
      with ((wakeup_script w ++ concat (wakeup_script <$> ws)) ++ rest).
    rewrite <- app_assoc.
    rewrite (main_loop_inotify_step fd wd argc argv e p _ w _ Hp Hw), IH.
    cbn [fst snd].
    change (concat (wakeup_trace fd wd argc argv <$> w :: ws))
      with (wakeup_trace fd wd argc argv w ++
            concat (wakeup_trace fd wd argc argv <$> ws)).
    rewrite <- app_assoc. reflexivity.
Qed.

(** X13.  A session without incident, end to end.  All registrations
    succeed; the inotify descriptor then wakes the loop any number of
    times, each time holding well-formed batches; finally the console is
    ready and delivers a line.  The run is exactly: the banner, the set-up
    calls, one registration per path in order, "Listening for events.",
    for each wake-up the wait, the reads and one line per record, then the
    last wait, the console reads up to the line terminator, "Listening for
    events stopped.", [close], [free], and exit with success status.  What
    the descriptor or the console hold beyond that is never read. *)
Theorem main_session (argv : list string) (e : env) (fd errno : Z)
  (ps : list poll_result) (p_last : poll_result)
  (more_polls : list poll_result) (ws : list (list (list record)))
  (rest : list read_result) (typed : list byte)
  (more_keys : list read_result) :
  init_result e = (fd, errno) ->
  fd <> -1 ->
  calloc_result e = AllocOk ->
  (2 <= length argv)%nat ->
  (forall j : nat, (1 <= j < length argv)%nat ->
     registered_id e argv j <> -1) ->
  poll_script e = ps ++ p_last :: more_polls ->
  Forall2 (fun p w => inotify_ready p /\ Forall good_batch w) ps ws ->
  console_ready p_last ->
  inotify_script e = concat (wakeup_script <$> ws) ++ rest ->
  stdin_script e = keystrokes typed ++ ReadData [x0a] :: more_keys ->
  x0a ∉ typed ->
  let argc := Z.of_nat (length argv) in
  let wd := 0 :: registered_ids e argv 1 (length argv - 1) in
  main argv e
  = (Stdout ("Press ENTER key to exit." ++ newline) ::
     InotifyInit1 IN_NONBLOCK :: Calloc argc ::
     add_watch_calls fd argv 1 (length argv - 1) ++
     Stdout ("Listening for events." ++ newline) ::
     (concat (wakeup_trace fd wd argc argv <$> ws) ++
      Poll :: replicate (S (length typed)) (Read STDIN_FILENO 1)) ++
     [Stdout ("Listening for events stopped." ++ newline); Close fd; Free],
     Exited EXIT_SUCCESS).
Proof.
  intros Hinit Hfd Hcalloc Hargc Hreg Hpolls Hws Hlast Hino Hstdin Hnot
    argc wd.
  unfold main. fold argc.
  rewrite (proj2 (Z.ltb_ge argc 2)) by (subst argc; lia).
  rewrite Hinit, (proj2 (Z.eqb_neq fd (-1)) Hfd), Hcalloc.
  unfold watch_and_listen, register_all.
  replace (Z.to_nat (argc - 1)) with (length argv - 1)%nat
    by (subst argc; lia).
  replace (Z.to_nat argc) with (S (length argv - 1)) by (subst argc; lia).
  change (replicate (S (length argv - 1)) 0)
    with ([0] ++ replicate (length argv - 1) 0).
  rewrite (add_watches_success fd argv e (length argv - 1) 1 [0] eq_refl)
    by (intros j Hj; apply Hreg; lia).
  cbn [app]. fold wd.
  rewrite Hpolls, Hino.
  rewrite (main_loop_session fd wd argc argv e p_last more_polls rest typed
             more_keys Hlast Hnot Hstdin ps ws Hws).
  reflexivity.
Qed.

Lemma main_session_witness :
  main sample_argv session_env
  = ([Stdout ("Press ENTER key to exit." ++ newline);
      InotifyInit1 IN_NONBLOCK; Calloc 3;
      AddWatch 3 "/tmp/a" WATCH_MASK; AddWatch 3 "/tmp/b" WATCH_MASK;
      Stdout ("Listening for events." ++ newline);
      Poll; Read 3 BUF_SIZE;
      Stdout ("IN_OPEN: IN_MOVED_FROM: /tmp/a/x.txt [file]" ++ newline);
      Stdout ("IN_CLOSE_WRITE: /tmp/b/ [directory]" ++ newline);
      Read 3 BUF_SIZE;
      Stdout ("y [file]" ++ newline);
      Read 3 BUF_SIZE;
      Poll; Read 3 BUF_SIZE;
      Stdout ("IN_CLOSE_WRITE: /tmp/b/ [directory]" ++ newline);
      Read 3 BUF_SIZE;
      Poll; Read STDIN_FILENO 1; Read STDIN_FILENO 1;
      Stdout ("Listening for events stopped." ++ newline);
      Close 3; Free], Exited EXIT_SUCCESS).
Proof.
  pose proof sample_records_well_formed as Hwf. unfold sample_records in Hwf.
  apply Forall_cons_1 in Hwf as [_ Hwf].
  apply Forall_cons_1 in Hwf as [Hdir _].
  assert (Hsingle : Forall good_batch [[sample_dir_closed]]).
  { apply List.Forall_cons; [|apply List.Forall_nil].
    split; [discriminate|].
    split; [apply List.Forall_cons; [exact Hdir|apply List.Forall_nil]|].
    vm_compute. discriminate. }
  apply (main_session sample_argv session_env 3 0
           [mk_poll 1 0 0 POLLIN; mk_poll 1 0 0 POLLIN] (mk_poll 1 0 POLLIN 0)
           []
           [[[sample_open_moved; sample_dir_closed]; [sample_ignored]];
            [[sample_dir_closed]]]
           [] [x71] []).
  - reflexivity.
  - discriminate.
  - reflexivity.
  - simpl. lia.
  - intros j Hj. simpl in Hj.
    assert (j = 1%nat \/ j = 2%nat) as [-> | ->] by lia;
      vm_compute; discriminate.
  - reflexivity.
  - constructor; [split; [repeat split|exact sample_batches_good]|].
    constructor; [split; [repeat split|exact Hsingle]|]. constructor.
  - split; reflexivity.
  - reflexivity.
  - reflexivity.
  - intros Hin. apply list_elem_of_singleton in Hin. discriminate Hin.
Defined.

(** ** Failure exits *)

Lemma ends_with_diagnostic_cons (ev : io_event) (tr : list io_event) :
  ends_with_diagnostic tr -> ends_with_diagnostic (ev :: tr).
Proof.
  intros (tr0 & d & -> & Hd). exists (ev :: tr0), d.
  split; [reflexivity|exact Hd].
Qed.

Lemma ends_with_diagnostic_app (pre tr : list io_event) :
  ends_with_diagnostic tr -> ends_with_diagnostic (pre ++ tr).
Proof.
  intros (tr0 & d & -> & Hd). exists (pre ++ tr0), d.
  split; [apply app_assoc|exact Hd].
Qed.

Lemma ends_with_perror (tr0 : list io_event) (prefix : string) (errno : Z) :
  ends_with_diagnostic (tr0 ++ [Perror prefix errno]).
Proof. exists tr0, (Perror prefix errno). split; [reflexivity|exact I]. Qed.

Lemma add_watches_reported (fd : Z) (argv : list string) (e : env) (n : nat) :
  forall (i : nat) (wd : list Z),
    snd (add_watches n i fd argv e wd) = None ->
    ends_with_diagnostic (fst (add_watches n i fd argv e wd)).
Proof.
  induction n as [|n IH]; intros i wd; cbn [add_watches]; [discriminate|].
  destruct (add_watch_result e i (argv_at argv i)) as [r errno].
  destruct (r =? -1).
  - intros _. apply (ends_with_perror [_; _]).
  - specialize (IH (S i) (<[i := r]> wd)).
    destruct (add_watches n (S i) fd argv e _) as [tr res].
    cbn [fst snd] in *. intros Hres.
    apply ends_with_diagnostic_cons, IH, Hres.
Qed.

Lemma handle_events_loop_reported (fd : Z) (wd : list Z) (argc : Z)
  (argv : list string) (script : list read_result) :
  forall (buf : list byte) (status : Z),
    snd (handle_events_loop fd wd argc argv buf script)
    = Halt (Exited status) ->
    status = EXIT_FAILURE /\
    ends_with_diagnostic (fst (handle_events_loop fd wd argc argv buf script)).
Proof.
  induction script as [|r script IH]; intros buf status;
    cbn [handle_events_loop]; [discriminate|].
  destruct (sys_read BUF_SIZE buf r) as [[len errno] buf'].
  destruct ((len =? -1) && negb (errno =? EAGAIN)).
  { intros [= <-]. split; [reflexivity|apply (ends_with_perror [_])]. }
  destruct (len <=? 0); [discriminate|].
  destruct (decode_events wd argc argv buf' len) as [steps [c|c|]];
    [|discriminate..].
  specialize (IH buf' status).
  destruct (handle_events_loop fd wd argc argv buf' script) as [tr o].
  cbn [fst snd] in *. intros Ho. destruct (IH Ho) as [Hs Hd].
  split; [exact Hs|].
  apply ends_with_diagnostic_cons, ends_with_diagnostic_app, Hd.
Qed.

Lemma main_loop_reported (fd : Z) (wd : list Z) (argc : Z)
  (argv : list string) (e : env) (polls : list poll_result) :
  forall (ino : list read_result) (status : Z),
    snd (main_loop fd wd argc argv e polls ino) = Halt (Exited status) ->
    status = EXIT_FAILURE /\
    ends_with_diagnostic (fst (main_loop fd wd argc argv e polls ino)).
Proof.
  induction polls as [|p polls IH]; intros ino status; cbn [main_loop];
    [discriminate|].
  assert (Hnext : forall ino',
    snd (let '(tr, o) := main_loop fd wd argc argv e polls ino' in
         (Poll :: tr, o)) = Halt (Exited status) ->
    status = EXIT_FAILURE /\
    ends_with_diagnostic
      (fst (let '(tr, o) := main_loop fd wd argc argv e polls ino' in
            (Poll :: tr, o)))).
  { intros ino'. specialize (IH ino' status).
    destruct (main_loop fd wd argc argv e polls ino') as [tr o].
    cbn [fst snd] in *. intros Ho. destruct (IH Ho) as [Hs Hd].
    split; [exact Hs|apply ends_with_diagnostic_cons, Hd]. }
  destruct (poll_num p =? -1).
  { destruct (poll_errno p =? EINTR); [apply Hnext|].
    intros [= <-]. split; [reflexivity|apply (ends_with_perror [_])]. }
  destruct (0 <? poll_num p); [|apply Hnext].
  destruct (test_mask (revents0 p) POLLIN).
  { destruct (drain_stdin (stdin_script e)) as [tr [|]]; discriminate. }
  destruct (test_mask (revents1 p) POLLIN); [|apply Hnext].
  unfold handle_events.
  pose proof (handle_events_loop_reported fd wd argc argv ino (stack_bytes e)
                status) as Hpass.
  destruct (handle_events_loop fd wd argc argv (stack_bytes e) ino)
    as [tr [ino'|h]]; cbn [fst snd] in *.
  - specialize (IH ino' status).
    destruct (main_loop fd wd argc argv e polls ino') as [tr' o].
    cbn [fst snd] in *. intros Ho. destruct (IH Ho) as [Hs Hd].
    split; [exact Hs|].
    apply ends_with_diagnostic_cons, ends_with_diagnostic_app, Hd.
  - intros [= ->]. destruct (Hpass eq_refl) as [Hs Hd].
    split; [exact Hs|apply ends_with_diagnostic_cons, Hd].
Qed.

(** X14.  The process has two exit statuses and never fails silently:
    whenever [main] exits, the status is [EXIT_SUCCESS] or [EXIT_FAILURE],
    and on every exit with failure status the last thing the process did
    was to write a diagnostic ([perror], or the usage message when no path
    was supplied). *)
Theorem main_failure_reported (argv : list string) (e : env) (status : Z) :
  (1 <= length argv)%nat ->
  snd (main argv e) = Exited status ->
  status = EXIT_SUCCESS \/
  (status = EXIT_FAILURE /\ ends_with_diagnostic (fst (main argv e))).
Proof.
  intros Hargv. unfold main.
  destruct (Z.of_nat (length argv) <? 2).
  { intros [= <-]. right. split; [reflexivity|].
    exists [], (Stdout ("Usage: " ++ argv_at argv 0 ++ " PATH [PATH ...]" ++
                        newline)).
    split; [reflexivity|]. exists (argv_at argv 0). reflexivity. }
  destruct (init_result e) as [fd errno].
  destruct (fd =? -1).
  { intros [= <-]. right. split; [reflexivity|apply (ends_with_perror [_; _])]. }
  destruct (calloc_result e) as [|errno'].
  2:{ intros [= <-]. right.
      split; [reflexivity|apply (ends_with_perror [_; _; _])]. }
  unfold watch_and_listen, register_all.
  pose proof (add_watches_reported fd argv e
                (Z.to_nat (Z.of_nat (length argv) - 1)) 1
                (replicate (Z.to_nat (Z.of_nat (length argv))) 0)) as Hreg.
  destruct (add_watches _ 1 fd argv e _) as [tr [wd|]]; cbn [fst snd] in *.
  - pose proof (main_loop_reported fd wd (Z.of_nat (length argv)) argv e
                  (poll_script e) (inotify_script e) status) as Hloop.
    destruct (main_loop fd wd (Z.of_nat (length argv)) argv e (poll_script e)
                (inotify_script e)) as [tr' [[]|h]]; cbn [fst snd] in *.
    + intros [= <-]. left. reflexivity.
    + intros ->. destruct (Hloop eq_refl) as [Hs Hd].
      right. split; [exact Hs|].
      do 3 apply ends_with_diagnostic_cons.
      apply ends_with_diagnostic_app, ends_with_diagnostic_cons, Hd.
  - intros [= <-]. right. split; [reflexivity|].
    do 3 apply ends_with_diagnostic_cons. apply Hreg. reflexivity.
Qed.

Lemma main_failure_reported_witness :
  ends_with_diagnostic (fst (main missing_argv missing_env)) /\
  ends_with_diagnostic (fst (main ["ino"%string] sample_env)).
Proof.
  split.
  - destruct (main_failure_reported missing_argv missing_env 1)
      as [Hs|[_ Hd]]; [simpl; lia|reflexivity|discriminate Hs|exact Hd].
  - destruct (main_failure_reported ["ino"%string] sample_env 1)
      as [Hs|[_ Hd]]; [simpl; lia|reflexivity|discriminate Hs|exact Hd].
Defined.
